(** * cpp-compile-overhead: the measurement engine and the job orchestrator

    A shallow embedding of [scripts/analyze-file.py] (module [AnalyzeFile])
    and [scripts/execute-jobs.py] (module [ExecuteJobs]), followed by the
    properties of the two scripts.

    Conventions of the embedding:
    - Python [int] is [Z]; Python [float] is the binary64 [float] of
      [PrimFloat], with its own [/] and [<];
    - a decoded Python [str] read from the toolchain is a list of code
      points ([list N]); JSON strings handled by the orchestrator are
      [string];
    - a Python [dict] with string keys is a [gmap string _];
    - an uncaught exception ends the script: functions that can raise
      return a sum whose left side is the exception. *)

From Stdlib Require Import ZArith NArith List Bool Lia String Ascii Floats.
From Stdlib Require Import Permutation Sorted.
From stdpp Require Import base option list gmap strings.

Set Warnings "-inexact-float".

Local Open Scope nat_scope.

(** Decoded text: a sequence of Unicode code points. *)
Abbreviation text := (list N).

Definition ord (a : ascii) : N := N_of_ascii a.

(** A literal of the scripts (ASCII) as decoded text. *)
Definition str (s : string) : text := map ord (list_ascii_of_string s).

(** Exceptions the two scripts can die of. *)
Inductive exn : Type :=
| AssertionError (msg : string)
| ZeroDivisionError
| IndexError
| CalledProcessError.

(** ** scripts/analyze-file.py *)
Module AnalyzeFile.

(** The script from "Check stats" on, after its arguments were
    validated.  A computation either runs out of the fuel of the timing
    loop ([None], which never happens, see [measure_loop_total]), dies of
    an exception, or returns. *)
Definition M (A : Type) : Type := option (exn + A).
Definition ret {A} (a : A) : M A := Some (inr a).
Definition raise {A} (e : exn) : M A := Some (inl e).
Definition bind {A B} (m : M A) (k : A → M B) : M B :=
  match m with
  | None => None
  | Some (inl e) => Some (inl e)
  | Some (inr a) => k a
  end.

Notation "'let*' x ':=' m 'in' k" := (bind m (fun x => k))
  (at level 10, x pattern, m at level 100, k at level 200, only parsing).

(** *** Line counts of the preprocessed output (lines 103-113) *)

Definition LF : N := 10.
Definition CR : N := 13.
Definition SP : N := 32.

(** [f.readlines()] of a file opened in text mode: lines end at "\n",
    "\r\n" or "\r", and every terminator is handed over as "\n". *)
Fixpoint readlines_from (cur s : text) : list text :=
  match s with
  | [] => match cur with [] => [] | _ => [cur] end
  | c :: s' =>
      if N.eqb c LF then (cur ++ [LF]) :: readlines_from [] s'
      else if N.eqb c CR then
        (cur ++ [LF]) ::
          match s' with
          | c' :: s'' =>
              if N.eqb c' LF then readlines_from [] s'' else readlines_from [] s'
          | [] => []
          end
      else readlines_from (cur ++ [c]) s'
  end.

Definition readlines (s : text) : list text := readlines_from [] s.

(** The character class [[0-9a-zA-Z]]. *)
Definition is_alnum (c : N) : bool :=
  ((48 <=? c) && (c <=? 57) || (97 <=? c) && (c <=? 122)
   || (65 <=? c) && (c <=? 90))%N.

(** The character class [[a-zA-Z0-9_]]. *)
Definition is_ident_char (c : N) : bool := is_alnum c || N.eqb c 95.

(** [prog.search(l) is not None] for [prog = re.compile(r'[a-zA-Z0-9_]')]. *)
Definition search_ident (l : text) : bool := existsb is_ident_char l.

(** One round of [for l in f.readlines()]. *)
Definition count_line (acc : Z * Z) (l : text) : Z * Z :=
  let '(line_cnt_raw, line_cnt) := acc in
  ((line_cnt_raw + 1)%Z, if search_ident l then (line_cnt + 1)%Z else line_cnt).

(** [(result["line_count_raw"], result["line_count"])]. *)
Definition line_counts (out : text) : Z * Z :=
  let '(line_cnt_raw, line_cnt) := fold_left count_line (readlines out) (0%Z, 0%Z) in
  ((line_cnt_raw - 2)%Z, (line_cnt - 1)%Z).

(** *** Symbols (lines 121-152) *)

(** [str.splitlines()]: the line boundaries of Python, terminators
    dropped. *)
Definition is_linebreak (c : N) : bool :=
  existsb (N.eqb c) [10; 13; 11; 12; 28; 29; 30; 133; 8232; 8233]%N.

Fixpoint splitlines_from (cur s : text) : list text :=
  match s with
  | [] => match cur with [] => [] | _ => [cur] end
  | c :: s' =>
      if is_linebreak c then
        cur ::
          (if N.eqb c CR then
             match s' with
             | c' :: s'' =>
                 if N.eqb c' LF then splitlines_from [] s''
                 else splitlines_from [] s'
             | [] => []
             end
           else splitlines_from [] s')
      else splitlines_from (cur ++ [c]) s'
  end.

Definition splitlines (s : text) : list text := splitlines_from [] s.

Fixpoint drop_while (p : N → bool) (l : text) : text :=
  match l with
  | [] => []
  | c :: l' => if p c then drop_while p l' else l
  end.

Fixpoint take_while (p : N → bool) (l : text) : text :=
  match l with
  | [] => []
  | c :: l' => if p c then c :: take_while p l' else []
  end.

Definition is_space (c : N) : bool := N.eqb c SP.
Definition not_newline (c : N) : bool := negb (N.eqb c LF).

Record Symbols : Type := {
  undef_sym_cnt : Z; undef_sym_size : Z;
  data_sym_cnt : Z; data_sym_size : Z;
  code_sym_cnt : Z; code_sym_size : Z
}.

Definition no_symbols : Symbols := Build_Symbols 0 0 0 0 0 0.

Definition undef_types : text := map ord ["u"; "U"]%char.
Definition data_types : text := map ord ["b"; "B"; "r"; "R"; "d"; "D"]%char.
Definition code_types : text := map ord ["t"; "T"]%char.

(** [st in [...]] for a one-character [st]. *)
Definition st_in (st : N) (l : text) : bool := existsb (N.eqb st) l.

Section Engine.
(** [\w] outside ASCII follows the Unicode tables of the interpreter:
    [unicode_word c] tells whether the code point [c ≥ 128] is a word
    character. *)
Variable unicode_word : N → bool.

(** The class [\w] of a [str] pattern. *)
Definition is_word (c : N) : bool :=
  if (c <? 128)%N then is_ident_char c else unicode_word c.

(** [prog.match(l)] for [prog = re.compile(r'^[0-9a-zA-Z]* +(\w) (.+)$')]:
    the groups 1 and 2 of the match, if there is one.  The value and the
    blanks after it are maximal runs (what follows a shorter run cannot
    start the next item), and [.+$] takes the rest of the line, which may
    only be followed by a final "\n". *)
Definition match_line (l : text) : option (N * text) :=
  match drop_while is_alnum l with
  | sp :: after_sp =>
      if is_space sp then
        match drop_while is_space after_sp with
        | st :: c :: rest =>
            if is_word st && is_space c then
              let sn := take_while not_newline rest in
              match sn, drop_while not_newline rest with
              | _ :: _, [] => Some (st, sn)
              | _ :: _, [_] => Some (st, sn)
              | _, _ => None
              end
            else None
        | _ => None
        end
      else None
  | [] => None
  end.

(** The body of [for l in ....splitlines()]. *)
Definition sym_step (acc : Symbols) (l : text) : exn + Symbols :=
  match match_line l with
  | None => inl (AssertionError "could not parse line")
  | Some (st, sn) =>
      let len_sn := Z.of_nat (length sn) in
      if st_in st undef_types then
        inr {| undef_sym_cnt := undef_sym_cnt acc + 1;
               undef_sym_size := undef_sym_size acc + len_sn;
               data_sym_cnt := data_sym_cnt acc;
               data_sym_size := data_sym_size acc;
               code_sym_cnt := code_sym_cnt acc;
               code_sym_size := code_sym_size acc |}%Z
      else if st_in st data_types then
        inr {| undef_sym_cnt := undef_sym_cnt acc;
               undef_sym_size := undef_sym_size acc;
               data_sym_cnt := data_sym_cnt acc + 1;
               data_sym_size := data_sym_size acc + len_sn;
               code_sym_cnt := code_sym_cnt acc;
               code_sym_size := code_sym_size acc |}%Z
      else if st_in st code_types then
        inr {| undef_sym_cnt := undef_sym_cnt acc;
               undef_sym_size := undef_sym_size acc;
               data_sym_cnt := data_sym_cnt acc;
               data_sym_size := data_sym_size acc;
               code_sym_cnt := code_sym_cnt acc + 1;
               code_sym_size := code_sym_size acc + len_sn |}%Z
      else inl (AssertionError "unknown symbol type")
  end.

Fixpoint sym_loop (acc : Symbols) (lines : list text) : exn + Symbols :=
  match lines with
  | [] => inr acc
  | l :: lines' =>
      match sym_step acc l with
      | inl e => inl e
      | inr acc' => sym_loop acc' lines'
      end
  end.

(** The six counters after the loop over the decoded output of [nm]. *)
Definition nm_symbols (dump : text) : exn + Symbols :=
  sym_loop no_symbols (splitlines dump).
End Engine.

(** *** Timing ([measure_time], lines 163-178) *)

(** [list.sort()] on floats: a stable sort that only ever asks [y < x]. *)
Fixpoint insort (x : float) (l : list float) : list float :=
  match l with
  | [] => [x]
  | y :: l' => if PrimFloat.ltb y x then y :: insort x l' else x :: y :: l'
  end.

Definition sort (l : list float) : list float := foldr insort [] l.

(** [ts[3] / ts[0] < 1.01]: an index out of range raises [IndexError], a
    zero divisor raises [ZeroDivisionError]. *)
Definition cheapest_agree (ts : list float) : exn + bool :=
  match ts !! 3, ts !! 0 with
  | Some t3, Some t0 =>
      if PrimFloat.eqb t0 0%float then inl ZeroDivisionError
      else inr (PrimFloat.ltb (PrimFloat.div t3 t0) 1.01%float)
  | _, _ => inl IndexError
  end.

Section MeasureTime.
(** [call k] is the duration [t1 - t0] observed around the [k]-th
    execution (counted from 0) of [subprocess.call(sargs)]. *)
Variable call : nat → float.

(** The [while True] loop.  The state is the list [ts] and the number
    of executions of [subprocess.call] so far; the result is the state
    at the [break], or the exception raised. *)
Fixpoint measure_loop (fuel : nat) (ts : list float) (calls : nat)
  : option (nat * (exn + list float)) :=
  match fuel with
  | O => None
  | S fuel' =>
      if 20 <? length ts then Some (calls, inr ts)
      else if 8 <=? length ts then
        let ts := sort ts in
        match cheapest_agree ts with
        | inl e => Some (calls, inl e)
        | inr true => Some (calls, inr ts)
        | inr false => measure_loop fuel' (ts ++ [call calls]) (S calls)
        end
      else measure_loop fuel' (ts ++ [call calls]) (S calls)
  end.

(** [measure_time(sargs)]: the number of executions together with the
    returned value [ts[0]] of the sorted samples, or the exception. *)
Definition measure_time : option (nat * (exn + float)) :=
  match measure_loop 22 [] 0 with
  | None => None
  | Some (calls, inl e) => Some (calls, inl e)
  | Some (calls, inr ts) =>
      match sort ts !! 0 with
      | Some t => Some (calls, inr t)
      | None => Some (calls, inl IndexError)
      end
  end.

(** The first [k] observed durations, in the order of observation. *)
Definition samples (k : nat) : list float := map call (seq 0 k).
End MeasureTime.

(** *** The metrics record and the whole run *)

(** The keys of [result], in the order the script fills them. *)
Record MetricsRecord : Type := {
  line_count_raw : Z;
  line_count : Z;
  object_size : Z;
  undefined_symbol_count : Z;
  undefined_symbol_size : Z;
  data_symbol_count : Z;
  data_symbol_size : Z;
  code_symbol_count : Z;
  code_symbol_size : Z;
  object_size_base : Z;
  preprocessing_time : float;
  compile_time : float;
  preprocessing_time_base : float;
  compile_time_base : float
}.

(** What the external tools do during one run of the script.  A command
    run with [check=True] or [check_output] that exits non-zero is [None];
    otherwise the field holds what the script reads back. *)
Record Toolchain : Type := {
  preprocessed : option text;      (* main.o after [compiler -E main.cc] *)
  object_bytes : option Z;         (* size of main.o after [compiler -c main.cc] *)
  nm_output : option text;         (* decoded output of [nm main.o] *)
  baseline_bytes : option Z;       (* size of main.o after [compiler -c baseline.cc] *)
  preproc_calls : nat → float;     (* durations of [compiler -E main.cc] *)
  compile_calls : nat → float;     (* durations of [compiler -c main.cc] *)
  preproc_baseline_calls : nat → float;
  compile_baseline_calls : nat → float
}.

Definition checked {A} (o : option A) : M A :=
  match o with
  | Some a => ret a
  | None => raise CalledProcessError
  end.

Definition lift {A} (r : exn + A) : M A := Some r.

(** The value [measure_time] returns to its caller. *)
Definition timed (call : nat → float) : M float :=
  match measure_time call with
  | None => None
  | Some (_, r) => Some r
  end.

Section Analyze.
Variable unicode_word : N → bool.

Definition analyze (tc : Toolchain) : M MetricsRecord :=
  let* out := checked (preprocessed tc) in
  let '(raw, cnt) := line_counts out in
  let* osize := checked (object_bytes tc) in
  let* dump := checked (nm_output tc) in
  let* syms := lift (nm_symbols unicode_word dump) in
  let* bsize := checked (baseline_bytes tc) in
  let* t_pre := timed (preproc_calls tc) in
  let* t_comp := timed (compile_calls tc) in
  let* t_pre_base := timed (preproc_baseline_calls tc) in
  let* t_comp_base := timed (compile_baseline_calls tc) in
  ret {| line_count_raw := raw;
         line_count := cnt;
         object_size := osize;
         undefined_symbol_count := undef_sym_cnt syms;
         undefined_symbol_size := undef_sym_size syms;
         data_symbol_count := data_sym_cnt syms;
         data_symbol_size := data_sym_size syms;
         code_symbol_count := code_sym_cnt syms;
         code_symbol_size := code_sym_size syms;
         object_size_base := bsize;
         preprocessing_time := t_pre;
         compile_time := t_comp;
         preprocessing_time_base := t_pre_base;
         compile_time_base := t_comp_base |}.
End Analyze.

End AnalyzeFile.

(** ** scripts/execute-jobs.py *)
Module ExecuteJobs.

(** The JSON values found in a job record. *)
Inductive value : Type :=
| VInt (z : Z)
| VFloat (f : float)
| VStr (s : string)
| VList (l : list string).

(** A record of the jobs file, as the job list contract has it. *)
Record Job : Type := {
  file : string;
  compiler : string;
  args : list string
}.

(** [sep.join(l)]. *)
Definition join (sep : string) (l : list string) : string := String.concat sep l.

(** Lines 44-48: the cache key of a job. *)
Definition job_id (j : Job) : string :=
  join ":" ([file j] ++ [compiler j] ++ args j).

(** The variables of the script, the cache file, and the analyzer
    processes started so far (their argument vectors, oldest first). *)
Record State : Type := {
  job_cache : gmap string (gmap string value);
  cache_file : option (gmap string (gmap string value));
  found_cached : Z;
  idx : Z;
  analyzer_calls : list (list string)
}.

(** How a piece of the script ends: normally, or with an exception that
    ends the run; either way the state reached is kept. *)
Inductive Outcome (A : Type) : Type :=
| Done (a : A) (s : State)
| Raised (e : exn) (s : State).
Arguments Done {A} a s.
Arguments Raised {A} e s.

Definition final_state {A} (o : Outcome A) : State :=
  match o with
  | Done _ s => s
  | Raised _ s => s
  end.

(** Lines 20 and 28-30: the cache at start. *)
Definition load_cache (disk : option (gmap string (gmap string value)))
  : gmap string (gmap string value) :=
  match disk with
  | Some c => c
  | None => ∅
  end.

Definition init (disk : option (gmap string (gmap string value))) : State :=
  {| job_cache := load_cache disk;
     cache_file := disk;
     found_cached := 0;
     idx := 0;
     analyzer_calls := [] |}.

(** The job record as loaded from the jobs file. *)
Definition job_dict (j : Job) : gmap string value :=
  {[ "file" := VStr (file j);
     "compiler" := VStr (compiler j);
     "args" := VList (args j) ]}.

(** Lines 67-70: [j["id"]], [j["argstr"]], then every key of [res]. *)
Definition enrich (j : Job) (i : Z) (res : gmap string value) : gmap string value :=
  res ∪ <["argstr" := VStr (join " " (args j))]> (<["id" := VInt i]> (job_dict j)).

Section Run.
(** The absolute path of the analyzer script and [args.dir]. *)
Variables (analyzer_script dir : string).
(** [analyzer n sargs]: what the analyzer prints, parsed, when it is
    started with [sargs] after [n] earlier analyzer processes of this
    run; [None] when it exits non-zero. *)
Variable analyzer : nat → list string → option (gmap string value).

(** The body of [for j in jobs]. *)
Definition process_job (s : State) (j : Job) : Outcome (gmap string value) :=
  let id := job_id j in
  match job_cache s !! id with
  | Some res =>
      Done (enrich j (idx s) res)
           {| job_cache := job_cache s;
              cache_file := cache_file s;
              found_cached := found_cached s + 1;
              idx := idx s + 1;
              analyzer_calls := analyzer_calls s |}
  | None =>
      let sargs :=
        [analyzer_script; "-c"; compiler j; "-d"; dir; file j; "--"] ++ args j in
      let calls := analyzer_calls s ++ [sargs] in
      match analyzer (length (analyzer_calls s)) sargs with
      | None =>
          Raised CalledProcessError
                 {| job_cache := job_cache s;
                    cache_file := cache_file s;
                    found_cached := found_cached s;
                    idx := idx s;
                    analyzer_calls := calls |}
      | Some res =>
          let cache := <[id := res]> (job_cache s) in
          Done (enrich j (idx s) res)
               {| job_cache := cache;
                  cache_file := Some cache;
                  found_cached := found_cached s;
                  idx := idx s + 1;
                  analyzer_calls := calls |}
      end
  end%Z.

(** The loop over the job list: the enriched records, in input order. *)
Fixpoint run_jobs (s : State) (jobs : list Job) : Outcome (list (gmap string value)) :=
  match jobs with
  | [] => Done [] s
  | j :: jobs' =>
      match process_job s j with
      | Raised e s' => Raised e s'
      | Done o s' =>
          match run_jobs s' jobs' with
          | Raised e s'' => Raised e s''
          | Done os s'' => Done (o :: os) s''
          end
      end
  end.

(** The state after the first [n] jobs of the list. *)
Definition state_after (s : State) (jobs : list Job) (n : nat) : State :=
  final_state (run_jobs s (take n jobs)).
End Run.

End ExecuteJobs.

(** ** Vocabulary of the properties *)
Module Spec.
Import AnalyzeFile ExecuteJobs.

(** *** Timing *)

(** What [t1 - t0] can be for two readings [t0 <= t1] of a monotonic
    clock: [+0.0] or a positive float (never NaN, never [-0.0]). *)
Definition duration (x : float) : Prop :=
  x = 0%float ∨ PrimFloat.ltb 0 x = true.

(** [a] is not above [b]: what [list.sort] guarantees of neighbours. *)
Definition no_smaller (a b : float) : Prop := PrimFloat.ltb b a = false.

(** *** Line counts *)

(** The lines of the output that hold a character of [[a-zA-Z0-9_]]. *)
Definition ident_lines (out : text) : list text :=
  List.filter search_ident (readlines out).

(** *** Symbols *)

(** The ten type characters of the three classes. *)
Definition known_types : text := undef_types ++ data_types ++ code_types.

(** The parsed lines [(st, sn)] whose type character is in [cls]. *)
Definition of_class (cls : text) (ps : list (N * text)) : list (N * text) :=
  List.filter (λ p, st_in p.1 cls) ps.

Definition class_count (cls : text) (ps : list (N * text)) : Z :=
  Z.of_nat (length (of_class cls ps)).

Definition class_size (cls : text) (ps : list (N * text)) : Z :=
  Z.of_nat (list_sum (map (λ p, length p.2) (of_class cls ps))).

(** The counters the claim expects for the parsed lines [ps]. *)
Definition counted (ps : list (N * text)) : Symbols :=
  {| undef_sym_cnt := class_count undef_types ps;
     undef_sym_size := class_size undef_types ps;
     data_sym_cnt := class_count data_types ps;
     data_sym_size := class_size data_types ps;
     code_sym_cnt := class_count code_types ps;
     code_sym_size := class_size code_types ps |}.

Definition plus (a b : Symbols) : Symbols :=
  {| undef_sym_cnt := undef_sym_cnt a + undef_sym_cnt b;
     undef_sym_size := undef_sym_size a + undef_sym_size b;
     data_sym_cnt := data_sym_cnt a + data_sym_cnt b;
     data_sym_size := data_sym_size a + data_sym_size b;
     code_sym_cnt := code_sym_cnt a + code_sym_cnt b;
     code_sym_size := code_sym_size a + code_sym_size b |}%Z.

(** The six symbol fields of a metrics record. *)
Definition symbols_of (r : MetricsRecord) : Symbols :=
  {| undef_sym_cnt := undefined_symbol_count r;
     undef_sym_size := undefined_symbol_size r;
     data_sym_cnt := data_symbol_count r;
     data_sym_size := data_symbol_size r;
     code_sym_cnt := code_symbol_count r;
     code_sym_size := code_symbol_size r |}.

Definition nonneg (s : Symbols) : Prop :=
  (0 ≤ undef_sym_cnt s ∧ 0 ≤ undef_sym_size s ∧ 0 ≤ data_sym_cnt s
   ∧ 0 ≤ data_sym_size s ∧ 0 ≤ code_sym_cnt s ∧ 0 ≤ code_sym_size s)%Z.

Section Grammar.
Variable unicode_word : N → bool.

(** A line of the grammar [<value> <type-char> <name>], read off the
    pattern [^[0-9a-zA-Z]* +(\w) (.+)$]: a run of alphanumerics, one or
    more blanks, the type character [st], one blank, and the name [sn],
    at least one character and none of them a newline, up to the end of
    the line (or to its final newline). *)
Definition line_grammar (l : text) (st : N) (sn : text) : Prop :=
  ∃ v sp tl,
    l = v ++ sp ++ [st; SP] ++ sn ++ tl
    ∧ Forall (λ c, is_alnum c = true) v
    ∧ sp ≠ [] ∧ Forall (λ c, c = SP) sp
    ∧ is_word unicode_word st = true
    ∧ sn ≠ [] ∧ Forall (λ c, c ≠ LF) sn
    ∧ (tl = [] ∨ tl = [LF]).

(** A line the loop cannot take: no parse, or a type character outside
    the three classes. *)
Definition bad_line (l : text) : Prop :=
  (¬ ∃ st sn, line_grammar l st sn)
  ∨ ∃ st sn, line_grammar l st sn ∧ st_in st known_types = false.

End Grammar.

(** *** Cache keys *)

(** [c in s]. *)
Fixpoint contains (c : ascii) (s : string) : bool :=
  match s with
  | EmptyString => false
  | String a s' => Ascii.eqb a c || contains c s'
  end.

(** No field of the job holds the separator of the key. *)
Definition colon_free (j : Job) : Prop :=
  contains ":" (file j) = false ∧ contains ":" (compiler j) = false
  ∧ Forall (λ a, contains ":" a = false) (args j).

End Spec.

(** ** Inputs used to run the embedding *)

(** An invocation that takes one second longer every time. *)
Fixpoint slowing (k : nat) : float :=
  match k with
  | O => 1%float
  | S k' => PrimFloat.add (slowing k') 1%float
  end.

(** An invocation on a machine that gets quiet: eight uneven runs, then
    runs of half a second. *)
Definition quiet (k : nat) : float :=
  nth k [0.52; 0.5; 0.7; 0.51; 0.6; 0.9; 0.8; 0.61]%float 0.5%float.

(** Text that ends every line with a newline. *)
Definition unlines (ls : list string) : text :=
  concat (map (λ l, str l ++ [AnalyzeFile.LF]) ls).

(** Preprocessed output: one line from the header, then [main]. *)
Definition header_and_main : text :=
  unlines ["int x;"; "int main() { return 0; }"].

(** Preprocessed output of an empty header when [-P] among the extra
    arguments suppresses the line markers. *)
Definition only_main : text := unlines ["int main() { return 0; }"].

(** [nm] output: the three symbols of the classification test, the same
    followed by a symbol of an unknown type, and [main] alone. *)
Definition three_symbols : text :=
  unlines ["0000 T foo"; "0000 D bar"; "0000 U baz"].
Definition unknown_symbol : text :=
  unlines ["0000 T foo"; "0000 X qux"].
Definition main_symbol : text := unlines ["0000000000000000 T main"].

Definition three_parsed : list (N * text) :=
  [(ord "T", str "foo"); (ord "D", str "bar"); (ord "U", str "baz")].

(** A toolchain that yields the given preprocessed output and symbols. *)
Definition toolchain (out dump : text) : AnalyzeFile.Toolchain :=
  {| AnalyzeFile.preprocessed := Some out;
     AnalyzeFile.object_bytes := Some 1232%Z;
     AnalyzeFile.nm_output := Some dump;
     AnalyzeFile.baseline_bytes := Some 1232%Z;
     AnalyzeFile.preproc_calls := quiet;
     AnalyzeFile.compile_calls := quiet;
     AnalyzeFile.preproc_baseline_calls := quiet;
     AnalyzeFile.compile_baseline_calls := quiet |}.

Definition ascii_only : N → bool := λ _, false.

(** Two jobs with the same file and compiler whose [args] are two
    orderings of the same two flags. *)
Definition flags_ab : ExecuteJobs.Job :=
  {| ExecuteJobs.file := "vector"; ExecuteJobs.compiler := "/usr/bin/g++";
     ExecuteJobs.args := ["-I"; "-I:-I"] |}.
Definition flags_ba : ExecuteJobs.Job :=
  {| ExecuteJobs.file := "vector"; ExecuteJobs.compiler := "/usr/bin/g++";
     ExecuteJobs.args := ["-I:-I"; "-I"] |}.

(** The same with flags that hold no colon. *)
Definition flags_o2_g : ExecuteJobs.Job :=
  {| ExecuteJobs.file := "vector"; ExecuteJobs.compiler := "/usr/bin/g++";
     ExecuteJobs.args := ["-O2"; "-g"] |}.
Definition flags_g_o2 : ExecuteJobs.Job :=
  {| ExecuteJobs.file := "vector"; ExecuteJobs.compiler := "/usr/bin/g++";
     ExecuteJobs.args := ["-g"; "-O2"] |}.

(** A run whose analyzer reports a different object size every time it
    is started. *)
Definition varying (n : nat) (sargs : list string) : option (gmap string ExecuteJobs.value) :=
  Some {[ "object_size" := ExecuteJobs.VInt (1000 + Z.of_nat n) ]}.

(** ** scripts/analyze-file.py: the checks on the arguments (lines 40-59) *)
Module AnalyzeFileArgs.

Definition DOT : N := 46.
Definition SLASH : N := 47.

(** [p.rfind(c)] for a one-character [c]: the index of its last
    occurrence, or -1. *)
Fixpoint rfind_from (c : N) (p : text) (i last : Z) : Z :=
  match p with
  | [] => last
  | x :: p' => rfind_from c p' (i + 1) (if N.eqb x c then i else last)
  end.

Definition rfind (c : N) (p : text) : Z := rfind_from c p 0 (-1).

(** [p[i:j]] for [0 <= i]. *)
Definition slice (p : text) (i j : Z) : text :=
  take (Z.to_nat (j - i)) (drop (Z.to_nat i) p).

(** [os.path.splitext(p)] of [posixpath]: the extension starts at the
    last dot of the last path component, unless that component has
    nothing but dots before it. *)
Definition splitext (p : text) : text * text :=
  let sepIndex := rfind SLASH p in
  let dotIndex := rfind DOT p in
  if (sepIndex <? dotIndex)%Z then
    if existsb (λ c, negb (N.eqb c DOT)) (slice p (sepIndex + 1) dotIndex)
    then (take (Z.to_nat dotIndex) p, drop (Z.to_nat dotIndex) p)
    else (p, [])
  else (p, []).

(** [s.startswith(prefix)]. *)
Fixpoint startswith (s prefix : text) : bool :=
  match prefix, s with
  | [], _ => true
  | c :: prefix', x :: s' => N.eqb x c && startswith s' prefix'
  | _ :: _, [] => false
  end.

Definition is_source (file : text) : bool := startswith (splitext file).2 (str ".c").
Definition is_header (file : text) : bool := startswith (splitext file).2 (str ".h").
Definition is_system (file : text) : bool :=
  match (splitext file).2 with [] => true | _ => false end.

(** [os.path.isabs(p)] of [posixpath]. *)
Definition isabs (p : text) : bool := startswith p [SLASH].

Section Checks.
(** [os.path.exists]: what the file system holds when the script runs. *)
Variable path_exists : text → bool.

(** The four asserts on the arguments, in the order of the script;
    [tmp_dir] is [args.dir]. *)
Definition check_args (compiler file tmp_dir : text) : exn + unit :=
  if negb (isabs compiler) then
    inl (AssertionError "compiler path must be absolute! (to prevent lookup dominating time measurement)")
  else if negb (path_exists compiler) then
    inl (AssertionError "cannot find compiler")
  else if negb (is_source file || is_header file || is_system file) then
    inl (AssertionError "unknown extension")
  else if negb (path_exists tmp_dir) then
    inl (AssertionError "tmp dir does not exist")
  else inr tt.
End Checks.

End AnalyzeFileArgs.

(** ** More vocabulary: lines *)
Module LinesSpec.
Import AnalyzeFile.

(** A line as [readlines] hands it over: a body without "\n" and "\r",
    closed by "\n" (or, for the last line of a file that does not end in
    a newline, not closed at all). *)
Definition read_line (l : text) : Prop :=
  ∃ body, (l = body ++ [LF] ∨ (l = body ∧ body ≠ []))
          ∧ Forall (λ c, c ≠ LF ∧ c ≠ CR) body.

End LinesSpec.

(** ** More vocabulary: the job loop *)
Module JobsSpec.
Import ExecuteJobs.

(** The argument vector the loop starts the analyzer with (line 56). *)
Definition analyzer_argv (analyzer_script dir : string) (j : Job) : list string :=
  [analyzer_script; "-c"; compiler j; "-d"; dir; file j; "--"] ++ args j.

(** The cache keys of a job list. *)
Definition job_ids (jobs : list Job) : gset string :=
  list_to_set (job_id <$> jobs).


(** The state a run reaches from [s] when each of its [n] jobs is found
    in the cache. *)
Definition reused (s : State) (n : nat) : State :=
  {| job_cache := job_cache s;
     cache_file := cache_file s;
     found_cached := found_cached s + Z.of_nat n;
     idx := idx s + Z.of_nat n;
     analyzer_calls := analyzer_calls s |}.

(** The enriched records of jobs that are all found in [cache], numbered
    from [i] on. *)
Fixpoint reuse_outputs (cache : gmap string (gmap string value)) (i : Z)
    (jobs : list Job) : list (gmap string value) :=
  match jobs with
  | [] => []
  | j :: jobs' =>
      enrich j i (default ∅ (cache !! job_id j))
        :: reuse_outputs cache (i + 1) jobs'
  end.

(** The enriched records of a run that ended normally. *)
Definition outputs (o : Outcome (list (gmap string value))) : list (gmap string value) :=
  match o with
  | Done outs _ => outs
  | Raised _ _ => []
  end.

(** Whether a run ended normally, and the exception it died of. *)
Definition ended_normally (o : Outcome (list (gmap string value))) : bool :=
  match o with
  | Done _ _ => true
  | Raised _ _ => false
  end.


End JobsSpec.

(** Three jobs, the first and the last alike, run against an empty cache
    with an analyzer that answers differently every time. *)
Definition job_a : ExecuteJobs.Job :=
  {| ExecuteJobs.file := "a.h"; ExecuteJobs.compiler := "/cc";
     ExecuteJobs.args := ["-g"] |}.
Definition job_b : ExecuteJobs.Job :=
  {| ExecuteJobs.file := "b.h"; ExecuteJobs.compiler := "/cc";
     ExecuteJobs.args := [] |}.
Definition three_jobs : list ExecuteJobs.Job := [job_a; job_b; job_a].
Definition three_jobs_run : ExecuteJobs.Outcome (list (gmap string ExecuteJobs.value)) :=
  ExecuteJobs.run_jobs "/a.py" "/tmp" varying (ExecuteJobs.init None) three_jobs.

(** An analyzer that always exits non-zero. *)
Definition failing (n : nat) (sargs : list string) : option (gmap string ExecuteJobs.value) :=
  None.


(** An invocation whose third execution is too fast for the clock. *)
Definition instant_third (k : nat) : float :=
  if Nat.eqb k 2 then 0%float else 0.5%float.

(** * Properties *)

(** ** The order of durations *)
Module FloatOrder.
Import Spec.

Lemma duration_shape x :
  duration x →
  Prim2SF x = S754_zero false ∨ Prim2SF x = S754_infinity false
  ∨ ∃ m e, Prim2SF x = S754_finite false m e.
Proof.
  intros [->|H]; [now left|]. right. revert H.
  rewrite FloatAxioms.ltb_spec. change (Prim2SF 0) with (S754_zero false).
  destruct (Prim2SF x) as [s|s| |s m e]; try discriminate.
  - destruct s; [discriminate|]. now left.
  - destruct s; [discriminate|]. right. eauto.
Qed.

Ltac shapes :=
  repeat match goal with
  | H : duration ?x |- _ =>
      destruct (duration_shape x H) as [?E|[?E|(?m & ?e & ?E)]]; clear H
  end;
  rewrite ?FloatAxioms.ltb_spec, ?FloatAxioms.leb_spec, ?FloatAxioms.eqb_spec in *;
  repeat match goal with E : Prim2SF _ = _ |- _ => rewrite E in * end;
  unfold SFltb, SFleb, SFeqb in *; cbn [SFcompare] in *.

Ltac cmps :=
  repeat match goal with
  | |- context [Z.compare ?a ?b] => destruct (Z.compare_spec a b)
  | H : context [Z.compare ?a ?b] |- _ => destruct (Z.compare_spec a b)
  | |- context [Pos.compare_cont Eq ?a ?b] =>
      change (Pos.compare_cont Eq a b) with (Pos.compare a b);
      destruct (Pos.compare_spec a b)
  | H : context [Pos.compare_cont Eq ?a ?b] |- _ =>
      change (Pos.compare_cont Eq a b) with (Pos.compare a b) in H;
      destruct (Pos.compare_spec a b)
  end.

Lemma ltb_irrefl x : PrimFloat.ltb x x = false.
Proof.
  rewrite FloatAxioms.ltb_spec. unfold SFltb.
  destruct (Prim2SF x) as [s|[]| |[] m e]; cbn [SFcompare]; try reflexivity;
    rewrite Z.compare_refl, Pos.compare_cont_refl; reflexivity.
Qed.

Lemma ltb_trans x y z :
  duration x → duration y → duration z →
  PrimFloat.ltb x y = true → PrimFloat.ltb y z = true → PrimFloat.ltb x z = true.
Proof.
  intros Hx Hy Hz. shapes; intros; try discriminate; try reflexivity;
    cmps; subst; try discriminate; try reflexivity; lia.
Qed.

Lemma ltb_total x y :
  duration x → duration y →
  PrimFloat.ltb x y = false → PrimFloat.ltb y x = false → x = y.
Proof.
  intros Hx Hy H1 H2. apply Prim2SF_inj.
  destruct (duration_shape x Hx) as [Ex|[Ex|(m1 & e1 & Ex)]];
  destruct (duration_shape y Hy) as [Ey|[Ey|(m2 & e2 & Ey)]];
  rewrite FloatAxioms.ltb_spec, Ex, Ey in H1, H2; rewrite Ex, Ey;
  unfold SFltb in *; cbn [SFcompare] in *; try discriminate; try reflexivity.
  cmps; subst; try discriminate; try reflexivity; lia.
Qed.

Lemma leb_not_ltb x y :
  duration x → duration y → PrimFloat.ltb y x = false → PrimFloat.leb x y = true.
Proof.
  intros Hx Hy. shapes; intros; try discriminate; try reflexivity;
    cmps; subst; try discriminate; try reflexivity; lia.
Qed.

Lemma positive_nonzero x : PrimFloat.ltb 0 x = true → PrimFloat.eqb x 0 = false.
Proof.
  intros Hx. assert (Hd : duration x) by now right.
  revert Hx. rewrite FloatAxioms.ltb_spec, FloatAxioms.eqb_spec.
  change (Prim2SF 0) with (S754_zero false).
  destruct (duration_shape x Hd) as [E|[E|(m & e & E)]]; rewrite E;
    try discriminate; reflexivity.
Qed.

End FloatOrder.

(** ** The timing sampler *)
Module Sampler.
Import AnalyzeFile Spec FloatOrder.

Lemma insort_perm x l : Permutation (insort x l) (x :: l).
Proof.
  induction l as [|y l IH]; simpl; [reflexivity|].
  destruct (PrimFloat.ltb y x); [|reflexivity].
  rewrite IH. apply perm_swap.
Qed.

Lemma sort_perm l : Permutation (sort l) l.
Proof.
  induction l as [|x l IH]; simpl; [reflexivity|].
  rewrite insort_perm. now apply perm_skip.
Qed.

Lemma sort_length l : length (sort l) = length l.
Proof. apply Permutation_length, sort_perm. Qed.

Lemma no_smaller_trans a b c :
  duration a → duration b → duration c →
  no_smaller a b → no_smaller b c → no_smaller a c.
Proof.
  unfold no_smaller. intros Ha Hb Hc Hab Hbc.
  destruct (PrimFloat.ltb c a) eqn:Hca; [|reflexivity].
  destruct (PrimFloat.ltb a b) eqn:Hlt.
  - rewrite (ltb_trans c a b) in Hbc; auto.
  - assert (a = b) by (apply ltb_total; auto). subst. congruence.
Qed.

Lemma ltb_asym a b :
  duration a → duration b → PrimFloat.ltb a b = true → no_smaller a b.
Proof.
  unfold no_smaller. intros Ha Hb Hab.
  destruct (PrimFloat.ltb b a) eqn:Hba; [|reflexivity].
  pose proof (ltb_trans a b a Ha Hb Ha Hab Hba) as H.
  rewrite ltb_irrefl in H. discriminate.
Qed.

Lemma insort_sorted x l :
  duration x → Forall duration l →
  StronglySorted no_smaller l → StronglySorted no_smaller (insort x l).
Proof.
  intros Hx Hl Hs. induction Hs as [|y l Hs IH Hy]; simpl.
  - repeat constructor.
  - apply Forall_cons_iff in Hl as [Hpy Hl].
    destruct (PrimFloat.ltb y x) eqn:Hyx.
    + constructor; [auto|].
      rewrite insort_perm.
      constructor; [now apply ltb_asym | assumption].
    + constructor; [now constructor|].
      constructor; [exact Hyx|].
      rewrite List.Forall_forall in Hy, Hl |- *. intros z Hz.
      apply (no_smaller_trans x y z); auto.
Qed.

Lemma sort_sorted l :
  Forall duration l → StronglySorted no_smaller (sort l).
Proof.
  induction 1 as [|x l Hx Hl IH]; simpl; [constructor|].
  apply insort_sorted; auto.
  now rewrite sort_perm.
Qed.

Lemma sorted_unique l1 l2 :
  Forall duration l1 → Permutation l1 l2 →
  StronglySorted no_smaller l1 → StronglySorted no_smaller l2 → l1 = l2.
Proof.
  intros Hp Hperm Hs1. revert l2 Hperm.
  induction Hs1 as [|a l1 Hs1 IH Ha]; intros l2 Hperm Hs2.
  - now apply Permutation_nil in Hperm.
  - destruct Hs2 as [|b l2 Hs2 Hb].
    + symmetry in Hperm. now apply Permutation_nil in Hperm.
    + assert (Hp2 : Forall duration (b :: l2)) by now rewrite <- Hperm.
      apply Forall_cons_iff in Hp as [Hpa Hp].
      apply Forall_cons_iff in Hp2 as [Hpb Hp2].
      assert (a = b) as ->.
      { apply ltb_total; auto.
        - assert (Hin : In a (b :: l2)) by (apply (Permutation_in _ Hperm); now left).
          destruct Hin as [->|Hin]; [apply ltb_irrefl|].
          rewrite List.Forall_forall in Hb. exact (Hb a Hin).
        - assert (Hin : In b (a :: l1))
            by (apply (Permutation_in _ (Permutation_sym Hperm)); now left).
          destruct Hin as [->|Hin]; [apply ltb_irrefl|].
          rewrite List.Forall_forall in Ha. exact (Ha b Hin). }
      f_equal. apply IH; auto. now apply Permutation_cons_inv in Hperm.
Qed.

Lemma sort_perm_eq l1 l2 :
  Forall duration l1 → Permutation l1 l2 → sort l1 = sort l2.
Proof.
  intros Hp Hperm.
  assert (Hp2 : Forall duration l2) by now rewrite <- Hperm.
  apply sorted_unique.
  - now rewrite sort_perm.
  - now rewrite !sort_perm.
  - now apply sort_sorted.
  - now apply sort_sorted.
Qed.

Lemma samples_S call k : samples call (S k) = samples call k ++ [call k].
Proof. unfold samples. now rewrite seq_S, map_app. Qed.

Lemma samples_length call k : length (samples call k) = k.
Proof. unfold samples. now rewrite length_map, length_seq. Qed.

Lemma samples_durations call k :
  (∀ i, i < 21 → duration (call i)) → k ≤ 21 → Forall duration (samples call k).
Proof.
  intros Hpos Hk. unfold samples. rewrite List.Forall_map, List.Forall_forall.
  intros i Hi%in_seq. apply Hpos. lia.
Qed.

Lemma measure_loop_S call fuel ts calls :
  measure_loop call (S fuel) ts calls =
    if 20 <? length ts then Some (calls, inr ts)
    else if 8 <=? length ts then
      match cheapest_agree (sort ts) with
      | inl e => Some (calls, inl e)
      | inr true => Some (calls, inr (sort ts))
      | inr false => measure_loop call fuel (sort ts ++ [call calls]) (S calls)
      end
    else measure_loop call fuel (ts ++ [call calls]) (S calls).
Proof. reflexivity. Qed.

(** The loop leaves with between 8 and 21 executions, whatever the
    durations are, as soon as the fuel covers the 21 rounds left. *)
Lemma measure_loop_total call fuel ts calls :
  length ts = calls → 21 - calls < fuel →
  ∃ n r, measure_loop call fuel ts calls = Some (n, r)
         ∧ 8 ≤ n ∧ calls ≤ n ∧ n ≤ Nat.max calls 21
         ∧ ∀ ts', r = inr ts' → length ts' = n.
Proof.
  revert ts calls. induction fuel as [|fuel IH]; intros ts calls Hlen Hfuel.
  - lia.
  - rewrite measure_loop_S, Hlen.
    assert (Hnext : ∀ ts0, length ts0 = calls → calls ≤ 20 →
      ∃ n r, measure_loop call fuel (ts0 ++ [call calls]) (S calls) = Some (n, r)
             ∧ 8 ≤ n ∧ calls ≤ n ∧ n ≤ Nat.max calls 21
             ∧ ∀ ts', r = inr ts' → length ts' = n).
    { intros ts0 Hts0 Hle.
      destruct (IH (ts0 ++ [call calls]) (S calls)) as (n & r & E & ? & ? & ? & ?).
      - rewrite length_app. simpl. lia.
      - lia.
      - exists n, r. repeat split; auto; lia. }
    destruct (Nat.ltb_spec 20 calls) as [Hgt|Hle].
    { exists calls, (inr ts). repeat split; try lia. now intros ? [= <-]. }
    destruct (Nat.leb_spec 8 calls) as [H8|H8]; [|now apply Hnext].
    destruct (cheapest_agree (sort ts)) as [e|[|]] eqn:Hagree.
    + exists calls, (inl e). repeat split; try lia. discriminate.
    + exists calls, (inr (sort ts)). repeat split; try lia.
      intros ? [= <-]. now rewrite sort_length.
    + apply Hnext; [now rewrite sort_length | assumption].
Qed.

Lemma cheapest_agree_positive ts :
  Forall (λ x, PrimFloat.ltb 0 x = true) ts → 4 ≤ length ts →
  ∃ b, cheapest_agree ts = inr b.
Proof.
  intros Hp Hlen. unfold cheapest_agree.
  destruct ts as [|t0 [|t1 [|t2 [|t3 ts]]]]; simpl in Hlen; try lia.
  simpl. apply Forall_cons_iff in Hp as [Hp0 _].
  rewrite (positive_nonzero _ Hp0). eauto.
Qed.

(** With durations as a clock gives them, the samples kept are the
    durations observed, and the loop is left at the first round, from the
    8th on, at which the sorted durations pass the test (or make it
    raise). *)
Lemma measure_loop_durations call fuel ts calls :
  (∀ i, i < 21 → duration (call i)) →
  Permutation ts (samples call calls) → 21 - calls < fuel →
  ∃ n r, measure_loop call fuel ts calls = Some (n, r)
         ∧ 8 ≤ n ∧ n ≤ Nat.max calls 21
         ∧ (∀ ts', r = inr ts' → Permutation ts' (samples call n))
         ∧ (∀ e, r = inl e → cheapest_agree (sort (samples call n)) = inl e)
         ∧ ∀ k, calls ≤ k → 8 ≤ k →
                cheapest_agree (sort (samples call k)) = inr true → n ≤ k.
Proof.
  intros Hdur. revert ts calls.
  induction fuel as [|fuel IH]; intros ts calls Hperm Hfuel.
  - lia.
  - pose proof (Permutation_length Hperm) as Hlen. rewrite samples_length in Hlen.
    rewrite measure_loop_S, Hlen.
    assert (Hnext : ∀ ts0, Permutation ts0 (samples call calls) → calls ≤ 20 →
      (8 ≤ calls → cheapest_agree (sort (samples call calls)) = inr false) →
      ∃ n r, measure_loop call fuel (ts0 ++ [call calls]) (S calls) = Some (n, r)
         ∧ 8 ≤ n ∧ n ≤ Nat.max calls 21
         ∧ (∀ ts', r = inr ts' → Permutation ts' (samples call n))
         ∧ (∀ e, r = inl e → cheapest_agree (sort (samples call n)) = inl e)
         ∧ ∀ k, calls ≤ k → 8 ≤ k →
                cheapest_agree (sort (samples call k)) = inr true → n ≤ k).
    { intros ts0 Hts0 Hle Hno.
      destruct (IH (ts0 ++ [call calls]) (S calls)) as (n & r & E & ? & ? & ? & ? & Hk).
      - rewrite samples_S. now apply Permutation_app_tail.
      - lia.
      - exists n, r. repeat split; auto; [lia|].
        intros k Hck H8 Hagree.
        destruct (Nat.eq_dec k calls) as [->|Hne].
        + rewrite Hno in Hagree by assumption. discriminate.
        + apply Hk; auto. lia. }
    destruct (Nat.ltb_spec 20 calls) as [Hgt|Hle].
    { exists calls, (inr ts). repeat split; auto; try lia.
      - now intros ? [= <-].
      - discriminate. }
    destruct (Nat.leb_spec 8 calls) as [H8|H8].
    2:{ apply Hnext; auto; lia. }
    assert (Hp : Forall duration ts).
    { rewrite Hperm. apply samples_durations; auto; lia. }
    assert (Hsort : sort ts = sort (samples call calls)) by now apply sort_perm_eq.
    destruct (cheapest_agree (sort ts)) as [e|[|]] eqn:Hb.
    + exists calls, (inl e). repeat split; auto; try lia.
      * discriminate.
      * intros ? [= <-]. now rewrite <- Hsort.
    + exists calls, (inr (sort ts)). repeat split; auto; try lia.
      * intros ? [= <-]. now rewrite sort_perm.
      * discriminate.
    + apply Hnext; auto.
      * now rewrite sort_perm.
      * intros _. now rewrite <- Hsort.
Qed.

(** The early stop of the spec's test: eight equal durations, eight
    executions. *)
Example measure_time_steady :
  measure_time (λ _, 0.25%float) = Some (8, inr 0.25%float).
Proof. vm_compute. reflexivity. Qed.

(** Three more executions after the first eight, until the four fastest
    runs agree. *)
Example measure_time_quiet : measure_time quiet = Some (11, inr 0.5%float).
Proof. vm_compute. reflexivity. Qed.

(** A run that takes no time at all makes the test divide by zero. *)
Example measure_time_zero :
  measure_time (λ _, 0%float) = Some (8, inl ZeroDivisionError).
Proof. vm_compute. reflexivity. Qed.

Lemma measure_time_total call :
  ∃ n r, measure_time call = Some (n, r) ∧ 8 ≤ n ∧ n ≤ 21.
Proof.
  unfold measure_time.
  destruct (measure_loop_total call 22 [] 0) as (n & r & E & H8 & _ & H21 & Hlen);
    [reflexivity | lia |].
  rewrite E. destruct r as [e|ts].
  - exists n, (inl e). repeat split; auto; lia.
  - destruct (sort ts !! 0) as [t|]; eauto 10 with lia.
Qed.

(** C1: [measure_time] always terminates, but it executes the invocation
    up to 21 times, not 20: the guard [len(ts) > 20] only leaves the loop
    once 21 samples were taken, as for an invocation whose four fastest
    runs never come within 1% of each other. *)
Theorem measure_time_runs_21_times :
  (∀ call, ∃ n r, measure_time call = Some (n, r) ∧ n ≤ 21)
  ∧ measure_time slowing = Some (21, inr 1%float).
Proof.
  split.
  - intros call. destruct (measure_time_total call) as (n & r & E & _ & H).
    eauto.
  - vm_compute. reflexivity.
Qed.

(** C10: whatever the durations are, [measure_time] ends (with a value or
    an exception) only after at least 8 executions of the invocation. *)
Theorem measure_time_at_least_8_calls call :
  ∃ n r, measure_time call = Some (n, r) ∧ 8 ≤ n.
Proof.
  destruct (measure_time_total call) as (n & r & E & H & _). eauto.
Qed.

(** C7: for durations as a monotonic clock gives them, [measure_time]
    makes no execution beyond the first round [k ≥ 8] at which the
    4th-smallest of the [k] durations seen, divided by the smallest, is
    below 1.01; a value it returns is the minimum of the durations seen;
    and it does return a value when the durations are positive. *)
Theorem measure_time_early_stop_and_minimum call :
  (∀ i, i < 21 → call i = 0%float ∨ PrimFloat.ltb 0 (call i) = true) →
  ∃ n r, measure_time call = Some (n, r)
    ∧ (∀ k, 8 ≤ k → cheapest_agree (sort (samples call k)) = inr true → n ≤ k)
    ∧ (∀ v, r = inr v →
         v ∈ samples call n ∧ ∀ x, x ∈ samples call n → PrimFloat.leb v x = true)
    ∧ ((∀ i, i < 21 → PrimFloat.ltb 0 (call i) = true) → ∃ v, r = inr v).
Proof.
  intros Hdur. unfold measure_time.
  destruct (measure_loop_durations call 22 [] 0 Hdur)
    as (n & r & E & H8 & H21 & Hperm & Hraise & Hstop); [reflexivity | lia |].
  rewrite E. destruct r as [e|ts].
  { exists n, (inl e). repeat split; try discriminate.
    - intros k Hk. apply Hstop; lia.
    - intros Hpos. specialize (Hraise e eq_refl).
      destruct (cheapest_agree_positive (sort (samples call n))) as [b Hb].
      + rewrite sort_perm. unfold samples.
        rewrite List.Forall_map, List.Forall_forall.
        intros i Hi%in_seq. apply Hpos. lia.
      + rewrite sort_length, samples_length. lia.
      + congruence. }
  specialize (Hperm ts eq_refl).
  assert (Hp : Forall duration (sort ts)).
  { rewrite sort_perm, Hperm. apply samples_durations; auto; lia. }
  pose proof (sort_sorted ts) as Hs.
  assert (Hps : Permutation (sort ts) (samples call n)) by now rewrite sort_perm.
  destruct (sort ts) as [|v rest] eqn:Hsort.
  { apply Permutation_length in Hps. rewrite samples_length in Hps.
    simpl in Hps. lia. }
  exists n, (inr v). simpl. split; [reflexivity|].
  split; [intros k Hk; apply Hstop; lia|].
  split; [|eauto].
  intros v' [= <-]. split; [rewrite <- Hps; left|].
  intros x Hx. rewrite <- Hps in Hx.
  apply Forall_cons_iff in Hp as [Hv Hrest].
  apply elem_of_cons in Hx as [->|Hx].
  - apply leb_not_ltb; auto. apply ltb_irrefl.
  - assert (Hss : StronglySorted no_smaller (v :: rest)).
    { apply Hs. rewrite <- sort_perm, Hsort. now constructor. }
    apply StronglySorted_inv in Hss as [_ Hall].
    rewrite List.Forall_forall in Hall, Hrest.
    apply list_elem_of_In in Hx.
    apply leb_not_ltb; auto. exact (Hall x Hx).
Qed.

Lemma measure_time_early_stop_and_minimum_witness :
  ∃ n r, measure_time quiet = Some (n, r)
    ∧ (∀ k, 8 ≤ k → cheapest_agree (sort (samples quiet k)) = inr true → n ≤ k)
    ∧ (∀ v, r = inr v →
         v ∈ samples quiet n ∧ ∀ x, x ∈ samples quiet n → PrimFloat.leb v x = true)
    ∧ ((∀ i, i < 21 → PrimFloat.ltb 0 (quiet i) = true) → ∃ v, r = inr v).
Proof.
  apply (measure_time_early_stop_and_minimum quiet).
  intros i _. right. unfold quiet.
  do 8 (destruct i as [|i]; [reflexivity|]). destruct i; reflexivity.
Defined.

End Sampler.

(** ** Line counts *)
Module Lines.
Import AnalyzeFile Spec.

Lemma search_ident_spec l :
  search_ident l = true ↔
  ∃ c, In c l ∧ (48 ≤ c ≤ 57 ∨ 97 ≤ c ≤ 122 ∨ 65 ≤ c ≤ 90 ∨ c = 95)%N.
Proof.
  unfold search_ident. rewrite existsb_exists.
  split; intros (c & Hin & Hc); exists c; (split; [exact Hin|]);
    unfold is_ident_char, is_alnum in *.
  - rewrite !orb_true_iff, !andb_true_iff, !N.leb_le, N.eqb_eq in Hc. lia.
  - rewrite !orb_true_iff, !andb_true_iff, !N.leb_le, N.eqb_eq. lia.
Qed.

Lemma count_lines_fold ls raw cnt :
  fold_left count_line ls (raw, cnt) =
    ((raw + Z.of_nat (length ls))%Z,
     (cnt + Z.of_nat (length (List.filter search_ident ls)))%Z).
Proof.
  revert raw cnt. induction ls as [|l ls IH]; intros raw cnt; simpl.
  - f_equal; lia.
  - rewrite IH. destruct (search_ident l); simpl; f_equal; lia.
Qed.

Lemma line_counts_spec out :
  line_counts out =
    ((Z.of_nat (length (readlines out)) - 2)%Z,
     (Z.of_nat (length (ident_lines out)) - 1)%Z).
Proof.
  unfold line_counts, ident_lines. rewrite count_lines_fold. reflexivity.
Qed.

End Lines.

(** ** Symbol lines *)
Module SymbolLines.
Import AnalyzeFile Spec.

Section Grammar.
Variable unicode_word : N → bool.

Lemma take_drop_while p l : take_while p l ++ drop_while p l = l.
Proof.
  induction l as [|c l IH]; simpl; [reflexivity|].
  destruct (p c); simpl; [now rewrite IH | reflexivity].
Qed.

Lemma take_while_Forall p l : Forall (λ c, p c = true) (take_while p l).
Proof.
  induction l as [|c l IH]; simpl; [constructor|].
  destruct (p c) eqn:E; now constructor.
Qed.

Lemma drop_while_app p v r :
  Forall (λ c, p c = true) v →
  match r with [] => True | c :: _ => p c = false end →
  drop_while p (v ++ r) = r ∧ take_while p (v ++ r) = v.
Proof.
  intros Hv Hr. induction Hv as [|c v Hc Hv IH]; simpl.
  - destruct r as [|c r]; [easy|]. simpl. now rewrite Hr.
  - rewrite Hc. destruct IH as [-> ->]. easy.
Qed.

Lemma word_not_space st : is_word unicode_word st = true → is_space st = false.
Proof.
  unfold is_word, is_space, SP. intros H.
  destruct (N.eqb_spec st 32) as [->|]; [|reflexivity].
  vm_compute in H. discriminate.
Qed.

Lemma match_line_complete l st sn :
  line_grammar unicode_word l st sn → match_line unicode_word l = Some (st, sn).
Proof.
  intros (v & sp & tl & -> & Hv & Hsp & Hsps & Hst & Hsn & Hnl & Htl).
  unfold match_line.
  destruct sp as [|s sp]; [easy|]. apply Forall_cons_iff in Hsps as [-> Hsps].
  destruct (drop_while_app is_alnum v ((SP :: sp) ++ [st; SP] ++ sn ++ tl)) as [-> _];
    [assumption | reflexivity |].
  simpl app at 1. cbv iota. change (is_space SP) with true. cbv iota.
  destruct (drop_while_app is_space sp (st :: SP :: sn ++ tl)) as [-> _].
  { eapply Forall_impl; [exact Hsps|]. now intros c ->. }
  { simpl. now apply word_not_space. }
  rewrite Hst. change (is_space SP) with true. simpl andb. cbv iota.
  destruct (drop_while_app not_newline sn tl) as [-> ->].
  { eapply Forall_impl; [exact Hnl|]. intros c Hc. unfold not_newline.
    now destruct (N.eqb_spec c LF). }
  { destruct Htl as [->| ->]; reflexivity. }
  destruct sn as [|c sn]; [easy|].
  destruct Htl as [->| ->]; reflexivity.
Qed.

Lemma match_line_sound l st sn :
  match_line unicode_word l = Some (st, sn) → line_grammar unicode_word l st sn.
Proof.
  unfold match_line. intros H.
  pose proof (take_drop_while is_alnum l) as Hl.
  pose proof (take_while_Forall is_alnum l) as Hv.
  destruct (drop_while is_alnum l) as [|s r1] eqn:E1; [discriminate|].
  destruct (is_space s) eqn:Hs; [|discriminate].
  apply N.eqb_eq in Hs. subst s.
  pose proof (take_drop_while is_space r1) as Hr1.
  pose proof (take_while_Forall is_space r1) as Hsp.
  destruct (drop_while is_space r1) as [|st' [|c r3]] eqn:E2; try discriminate.
  destruct (is_word unicode_word st') eqn:Hw; [|discriminate].
  destruct (is_space c) eqn:Hc; [|discriminate]. simpl in H.
  apply N.eqb_eq in Hc. subst c.
  pose proof (take_drop_while not_newline r3) as Hr3.
  pose proof (take_while_Forall not_newline r3) as Hnl.
  assert (Htail : ∀ c t, drop_while not_newline r3 = c :: t → c = LF).
  { clear. induction r3 as [|x r3 IH]; simpl; [discriminate|].
    intros c t. unfold not_newline at 1.
    destruct (N.eqb_spec x LF) as [->|]; simpl; [now intros [= <- _] | apply IH]. }
  assert (Hgoal : ∀ tl, drop_while not_newline r3 = tl → (tl = [] ∨ tl = [LF]) →
                        take_while not_newline r3 ≠ [] →
                        line_grammar unicode_word l st' (take_while not_newline r3)).
  { intros tl Etl Htl Hne.
    exists (take_while is_alnum l), (SP :: take_while is_space r1), tl.
    repeat split; auto.
    - subst tl. rewrite Hr3. simpl. rewrite Hr1. now rewrite Hl.
    - constructor; [reflexivity|]. eapply Forall_impl; [exact Hsp|].
      intros c Hc. now apply N.eqb_eq in Hc.
    - eapply Forall_impl; [exact Hnl|]. intros c Hc. unfold not_newline in Hc.
      now destruct (N.eqb_spec c LF). }
  destruct (take_while not_newline r3) as [|n0 sn0] eqn:Etk; [discriminate|].
  destruct (drop_while not_newline r3) as [|t0 [|t1 tl]] eqn:Edr; try discriminate;
    injection H as <- <-.
  - apply (Hgoal []); auto.
  - apply (Hgoal [t0]); auto. right. f_equal. now apply (Htail t0 []).
Qed.

Lemma match_line_spec l st sn :
  match_line unicode_word l = Some (st, sn) ↔ line_grammar unicode_word l st sn.
Proof. split; [apply match_line_sound | apply match_line_complete]. Qed.

Lemma line_grammar_unique l st sn st' sn' :
  line_grammar unicode_word l st sn → line_grammar unicode_word l st' sn' → st = st' ∧ sn = sn'.
Proof.
  intros H H'. apply match_line_complete in H, H'.
  rewrite H in H'. now injection H'.
Qed.

End Grammar.
End SymbolLines.

(** ** The measurement engine *)
Module Engine.
Import AnalyzeFile Spec Lines SymbolLines.

Lemma Symbols_eq (a b : Symbols) :
  undef_sym_cnt a = undef_sym_cnt b → undef_sym_size a = undef_sym_size b →
  data_sym_cnt a = data_sym_cnt b → data_sym_size a = data_sym_size b →
  code_sym_cnt a = code_sym_cnt b → code_sym_size a = code_sym_size b → a = b.
Proof. destruct a, b; simpl; congruence. Qed.

Lemma known_types_cases st :
  st_in st known_types = true →
  (st_in st undef_types = true ∧ st_in st data_types = false
   ∧ st_in st code_types = false)
  ∨ (st_in st undef_types = false ∧ st_in st data_types = true
     ∧ st_in st code_types = false)
  ∨ (st_in st undef_types = false ∧ st_in st data_types = false
     ∧ st_in st code_types = true).
Proof.
  unfold st_in at 1. intros H.
  apply existsb_exists in H as (c & Hin & ->%N.eqb_eq).
  vm_compute in Hin.
  repeat (destruct Hin as [<-|Hin]; [vm_compute; tauto|]). destruct Hin.
Qed.

Lemma counted_one st sn :
  counted [(st, sn)] =
    {| undef_sym_cnt := if st_in st undef_types then 1 else 0;
       undef_sym_size := if st_in st undef_types then Z.of_nat (length sn) else 0;
       data_sym_cnt := if st_in st data_types then 1 else 0;
       data_sym_size := if st_in st data_types then Z.of_nat (length sn) else 0;
       code_sym_cnt := if st_in st code_types then 1 else 0;
       code_sym_size := if st_in st code_types then Z.of_nat (length sn) else 0 |}%Z.
Proof.
  unfold counted, class_count, class_size, of_class, list_sum.
  cbn [List.filter fst snd].
  destruct (st_in st undef_types), (st_in st data_types), (st_in st code_types);
    apply Symbols_eq; cbn [length map list_sum fold_right fst snd undef_sym_cnt undef_sym_size
      data_sym_cnt data_sym_size code_sym_cnt code_sym_size]; lia.
Qed.

Section Loop.
Variable unicode_word : N → bool.

Lemma sym_step_parsed acc l st sn :
  line_grammar unicode_word l st sn → st_in st known_types = true →
  sym_step unicode_word acc l = inr (plus acc (counted [(st, sn)])).
Proof.
  intros Hg Hst. unfold sym_step. rewrite (match_line_complete _ _ _ _ Hg).
  rewrite counted_one.
  destruct (known_types_cases st Hst) as [(-> & -> & ->)|[(-> & -> & ->)|(-> & -> & ->)]];
    f_equal; apply Symbols_eq; cbn [plus undef_sym_cnt undef_sym_size
      data_sym_cnt data_sym_size code_sym_cnt code_sym_size]; lia.
Qed.

Lemma counted_cons p ps : counted (p :: ps) = plus (counted [p]) (counted ps).
Proof.
  unfold counted, class_count, class_size, of_class, plus, list_sum.
  cbn [List.filter undef_sym_cnt undef_sym_size
      data_sym_cnt data_sym_size code_sym_cnt code_sym_size].
  destruct (st_in p.1 undef_types), (st_in p.1 data_types), (st_in p.1 code_types);
    apply Symbols_eq; cbn [length map list_sum fold_right undef_sym_cnt undef_sym_size
      data_sym_cnt data_sym_size code_sym_cnt code_sym_size]; lia.
Qed.

Lemma sym_loop_counts acc lines ps :
  Forall2 (λ l p, line_grammar unicode_word l p.1 p.2) lines ps →
  Forall (λ p, st_in p.1 known_types = true) ps →
  sym_loop unicode_word acc lines = inr (plus acc (counted ps)).
Proof.
  intros Hall. revert acc.
  induction Hall as [|l [st sn] lines ps Hg Hall IH]; intros acc Hk.
  - simpl. f_equal. unfold counted, class_count, class_size, of_class, list_sum.
    apply Symbols_eq; cbn [plus List.filter length map fold_right undef_sym_cnt
      undef_sym_size data_sym_cnt data_sym_size code_sym_cnt code_sym_size]; lia.
  - apply Forall_cons_iff in Hk as [Hst Hk]. simpl in Hg, Hst.
    simpl. rewrite (sym_step_parsed _ _ _ _ Hg Hst), (IH _ Hk).
    f_equal. rewrite (counted_cons (st, sn) ps).
    apply Symbols_eq; cbn [plus undef_sym_cnt undef_sym_size
      data_sym_cnt data_sym_size code_sym_cnt code_sym_size]; lia.
Qed.

Lemma sym_step_raises acc l e :
  sym_step unicode_word acc l = inl e → ∃ msg, e = AssertionError msg.
Proof.
  unfold sym_step. destruct (match_line unicode_word l) as [[st sn]|].
  - destruct (st_in st undef_types); [discriminate|].
    destruct (st_in st data_types); [discriminate|].
    destruct (st_in st code_types); [discriminate|].
    intros [= <-]. eauto.
  - intros [= <-]. eauto.
Qed.

Lemma sym_step_bad acc l :
  bad_line unicode_word l → ∃ msg, sym_step unicode_word acc l = inl (AssertionError msg).
Proof.
  unfold sym_step. intros [Hno|(st & sn & Hg & Hst)].
  - destruct (match_line unicode_word l) as [[st sn]|] eqn:E; [|eauto].
    exfalso. apply Hno. exists st, sn. now apply match_line_sound.
  - rewrite (match_line_complete _ _ _ _ Hg).
    assert (st_in st undef_types = false ∧ st_in st data_types = false
            ∧ st_in st code_types = false) as (-> & -> & ->); [|eauto].
    unfold known_types, st_in in *.
    now rewrite !existsb_app, !orb_false_iff in Hst.
Qed.

Lemma sym_loop_bad acc lines :
  Exists (bad_line unicode_word) lines →
  ∃ msg, sym_loop unicode_word acc lines = inl (AssertionError msg).
Proof.
  intros Hex. revert acc. induction Hex as [l lines Hbad|l lines Hex IH]; intros acc.
  - simpl. destruct (sym_step_bad acc l Hbad) as [msg ->]. eauto.
  - simpl. destruct (sym_step unicode_word acc l) as [e|acc'] eqn:E.
    + apply sym_step_raises in E as [msg ->]. eauto.
    + apply IH.
Qed.

Lemma sym_step_nonneg acc l acc' :
  sym_step unicode_word acc l = inr acc' → nonneg acc → nonneg acc'.
Proof.
  unfold sym_step, nonneg. destruct (match_line unicode_word l) as [[st sn]|];
    [|discriminate].
  destruct (st_in st undef_types); [intros [= <-]; cbn; lia|].
  destruct (st_in st data_types); [intros [= <-]; cbn; lia|].
  destruct (st_in st code_types); [intros [= <-]; cbn; lia|discriminate].
Qed.

Lemma sym_loop_nonneg acc lines s :
  sym_loop unicode_word acc lines = inr s → nonneg acc → nonneg s.
Proof.
  revert acc. induction lines as [|l lines IH]; intros acc; simpl.
  - now intros [= <-].
  - destruct (sym_step unicode_word acc l) as [e|acc'] eqn:E; [discriminate|].
    intros Hs Hacc. apply (IH acc'); [assumption|].
    now apply (sym_step_nonneg acc l).
Qed.

Lemma nm_symbols_counts dump ps :
  Forall2 (λ l p, line_grammar unicode_word l p.1 p.2) (splitlines dump) ps →
  Forall (λ p, st_in p.1 known_types = true) ps →
  nm_symbols unicode_word dump = inr (counted ps).
Proof.
  intros Hall Hk. unfold nm_symbols. rewrite (sym_loop_counts _ _ ps Hall Hk).
  reflexivity.
Qed.

(** What a successful run read and how the record was filled. *)
Lemma analyze_inr tc r :
  analyze unicode_word tc = Some (inr r) →
  ∃ out dump syms,
    preprocessed tc = Some out ∧ nm_output tc = Some dump
    ∧ nm_symbols unicode_word dump = inr syms
    ∧ line_counts out = (line_count_raw r, line_count r)
    ∧ symbols_of r = syms.
Proof.
  unfold analyze, bind, checked, ret, raise, lift, timed.
  destruct (preprocessed tc) as [out|]; [|discriminate].
  destruct (line_counts out) as [raw cnt] eqn:Hlc.
  destruct (object_bytes tc) as [osize|]; [|discriminate].
  destruct (nm_output tc) as [dump|]; [|discriminate].
  destruct (nm_symbols unicode_word dump) as [e|syms] eqn:Hsyms; [discriminate|].
  destruct (baseline_bytes tc) as [bsize|]; [|discriminate].
  destruct (measure_time (preproc_calls tc)) as [[? [?|?]]|]; try discriminate.
  destruct (measure_time (compile_calls tc)) as [[? [?|?]]|]; try discriminate.
  destruct (measure_time (preproc_baseline_calls tc)) as [[? [?|?]]|]; try discriminate.
  destruct (measure_time (compile_baseline_calls tc)) as [[? [?|?]]|]; try discriminate.
  intros [= <-]. exists out, dump, syms.
  split; [reflexivity|]. split; [reflexivity|]. split; [exact Hsyms|].
  split; [exact Hlc|]. destruct syms; reflexivity.
Qed.

End Loop.

(** The classification test of the spec. *)
Example three_symbols_counted :
  nm_symbols ascii_only three_symbols = inr (Build_Symbols 1 3 1 3 1 3).
Proof. vm_compute. reflexivity. Qed.

Example unknown_symbol_raises :
  nm_symbols ascii_only unknown_symbol
  = inl (AssertionError "unknown symbol type").
Proof. vm_compute. reflexivity. Qed.

(** An undefined symbol has no value: the line starts with blanks. *)
Example undefined_symbol_line :
  match_line ascii_only (str "                 U printf")
  = Some (ord "U", str "printf").
Proof. vm_compute. reflexivity. Qed.

Example line_counts_header_and_main : line_counts header_and_main = (0, 1)%Z.
Proof. vm_compute. reflexivity. Qed.

(** C2 (as stated, refuted): with two lines that hold an identifier
    character, [line_count] is 1, not 2 - 2. *)
Lemma line_count_is_not_minus_two :
  ∃ r, analyze ascii_only (toolchain header_and_main main_symbol) = Some (inr r)
       ∧ line_count r ≠ (Z.of_nat (length (ident_lines header_and_main)) - 2)%Z.
Proof. eexists. split; [vm_compute; reflexivity | vm_compute; discriminate]. Qed.

(** C2 (amended): a successful run reports [line_count_raw] as the number
    of lines of the preprocessed output minus 2, and [line_count] as the
    number of its lines that hold a character of [[a-zA-Z0-9_]] minus 1. *)
Theorem line_counts_reported unicode_word tc r out :
  analyze unicode_word tc = Some (inr r) → preprocessed tc = Some out →
  line_count_raw r = (Z.of_nat (length (readlines out)) - 2)%Z
  ∧ line_count r = (Z.of_nat (length (ident_lines out)) - 1)%Z.
Proof.
  intros Hr Hout.
  destruct (analyze_inr _ _ _ Hr) as (out' & dump & syms & Hout' & _ & _ & Hlc & _).
  rewrite Hout in Hout'. injection Hout' as <-.
  rewrite line_counts_spec in Hlc. now injection Hlc as <- <-.
Qed.

Lemma line_counts_reported_witness :
  ∃ r, analyze ascii_only (toolchain header_and_main main_symbol) = Some (inr r)
       ∧ line_count_raw r = (Z.of_nat (length (readlines header_and_main)) - 2)%Z
       ∧ line_count r = (Z.of_nat (length (ident_lines header_and_main)) - 1)%Z.
Proof.
  eexists. split; [vm_compute; reflexivity|].
  apply (line_counts_reported ascii_only (toolchain header_and_main main_symbol));
    vm_compute; reflexivity.
Defined.

(** C5: when every line of the symbol dump parses as
    [<value> <type-char> <name>] with a type character of the three
    classes, the loop ends with, for each class, the number of lines of
    that class and the summed lengths of their names; a successful run
    reports these six numbers. *)
Theorem symbols_counted_per_class unicode_word dump ps :
  Forall2 (λ l p, line_grammar unicode_word l p.1 p.2) (splitlines dump) ps →
  Forall (λ p, st_in p.1 known_types = true) ps →
  nm_symbols unicode_word dump = inr (counted ps)
  ∧ ∀ tc r, nm_output tc = Some dump →
            analyze unicode_word tc = Some (inr r) → symbols_of r = counted ps.
Proof.
  intros Hall Hk.
  pose proof (nm_symbols_counts unicode_word dump ps Hall Hk) as Hnm.
  split; [exact Hnm|]. intros tc r Hdump Hr.
  destruct (analyze_inr _ _ _ Hr) as (out & dump' & syms & _ & Hdump' & Hsyms & _ & Hr').
  rewrite Hdump in Hdump'. injection Hdump' as <-.
  rewrite Hnm in Hsyms. injection Hsyms as <-. exact Hr'.
Qed.

Lemma symbols_counted_per_class_witness :
  nm_symbols ascii_only three_symbols = inr (counted three_parsed)
  ∧ ∀ tc r, nm_output tc = Some three_symbols →
            analyze ascii_only tc = Some (inr r) →
            symbols_of r = counted three_parsed.
Proof.
  apply (symbols_counted_per_class ascii_only three_symbols three_parsed).
  - let ls := eval vm_compute in (splitlines three_symbols) in
    change (splitlines three_symbols) with ls.
    repeat constructor; apply match_line_sound; reflexivity.
  - repeat constructor.
Defined.

(** C6: when some line of the symbol dump does not parse, or parses with
    a type character outside the three classes, the loop raises an
    [AssertionError], and so does the run: no metrics record is made. *)
Theorem bad_symbol_line_raises unicode_word tc out osize dump :
  preprocessed tc = Some out → object_bytes tc = Some osize →
  nm_output tc = Some dump →
  Exists (bad_line unicode_word) (splitlines dump) →
  ∃ msg, nm_symbols unicode_word dump = inl (AssertionError msg)
         ∧ analyze unicode_word tc = Some (inl (AssertionError msg)).
Proof.
  intros Hout Hobj Hdump Hbad.
  destruct (sym_loop_bad unicode_word no_symbols _ Hbad) as [msg Hmsg].
  exists msg. split; [exact Hmsg|].
  unfold analyze, bind, checked, ret, lift. rewrite Hout, Hobj, Hdump.
  destruct (line_counts out) as [raw cnt].
  unfold nm_symbols. now rewrite Hmsg.
Qed.

Lemma bad_symbol_line_raises_witness :
  ∃ msg, nm_symbols ascii_only unknown_symbol = inl (AssertionError msg)
         ∧ analyze ascii_only (toolchain header_and_main unknown_symbol)
           = Some (inl (AssertionError msg)).
Proof.
  apply (bad_symbol_line_raises ascii_only (toolchain header_and_main unknown_symbol)
           header_and_main 1232%Z unknown_symbol); try reflexivity.
  let ls := eval vm_compute in (splitlines unknown_symbol) in
  change (splitlines unknown_symbol) with ls.
  apply Exists_cons_tl, Exists_cons_hd. right.
  exists (ord "X"), (str "qux"). split; [|reflexivity].
  apply match_line_sound. reflexivity.
Defined.

(** C9 (as stated, refuted): a successful run on a preprocessed output of
    one line reports a negative [line_count_raw]. *)
Lemma line_count_raw_negative :
  ∃ r, analyze ascii_only (toolchain only_main main_symbol) = Some (inr r)
       ∧ (line_count_raw r < 0)%Z.
Proof. eexists. split; [vm_compute; reflexivity | vm_compute; reflexivity]. Qed.

(** C9 (amended): in the record of a successful run the three symbol
    counts are never negative; [line_count_raw] is non-negative exactly
    when the preprocessed output has at least 2 lines, and [line_count]
    exactly when at least one of its lines holds a character of
    [[a-zA-Z0-9_]]. *)
Theorem counts_nonnegative unicode_word tc r out :
  analyze unicode_word tc = Some (inr r) → preprocessed tc = Some out →
  (0 ≤ undefined_symbol_count r ∧ 0 ≤ data_symbol_count r
   ∧ 0 ≤ code_symbol_count r)%Z
  ∧ ((0 ≤ line_count_raw r)%Z ↔ 2 ≤ length (readlines out))
  ∧ ((0 ≤ line_count r)%Z ↔ 1 ≤ length (ident_lines out)).
Proof.
  intros Hr Hout.
  destruct (analyze_inr _ _ _ Hr) as (out' & dump & syms & Hout' & _ & Hsyms & Hlc & Hr').
  rewrite Hout in Hout'. injection Hout' as <-.
  rewrite line_counts_spec in Hlc. injection Hlc as <- <-.
  apply sym_loop_nonneg in Hsyms; [|unfold nonneg; cbn; lia].
  rewrite <- Hr' in Hsyms. unfold nonneg, symbols_of in Hsyms. cbn in Hsyms.
  repeat split; lia.
Qed.

Lemma counts_nonnegative_witness :
  ∃ r, analyze ascii_only (toolchain header_and_main three_symbols) = Some (inr r)
   ∧ (0 ≤ undefined_symbol_count r ∧ 0 ≤ data_symbol_count r
      ∧ 0 ≤ code_symbol_count r)%Z
   ∧ ((0 ≤ line_count_raw r)%Z ↔ 2 ≤ length (readlines header_and_main))
   ∧ ((0 ≤ line_count r)%Z ↔ 1 ≤ length (ident_lines header_and_main)).
Proof.
  eexists. split; [vm_compute; reflexivity|].
  apply (counts_nonnegative ascii_only (toolchain header_and_main three_symbols));
    vm_compute; reflexivity.
Defined.

End Engine.

(** ** Cache keys *)
Module CacheKey.
Import ExecuteJobs Spec.

Lemma join_cons x y l : join ":" (x :: y :: l) = (x ++ ":" ++ join ":" (y :: l))%string.
Proof. reflexivity. Qed.

(** A colon-free field ends at the first colon of the key. *)
Lemma field_split x y r1 r2 :
  contains ":" x = false → contains ":" y = false →
  (x ++ ":" ++ r1 = y ++ ":" ++ r2)%string → x = y ∧ r1 = r2.
Proof.
  revert y. induction x as [|a x IH]; intros [|b y]; simpl; intros Hx Hy H.
  - now injection H.
  - injection H as <- _. apply orb_false_iff in Hy as [Hy _].
    now rewrite Ascii.eqb_refl in Hy.
  - injection H as -> _. apply orb_false_iff in Hx as [Hx _].
    now rewrite Ascii.eqb_refl in Hx.
  - injection H as -> H.
    apply orb_false_iff in Hx as [_ Hx]. apply orb_false_iff in Hy as [_ Hy].
    destruct (IH y Hx Hy H) as [-> ->]. easy.
Qed.

Lemma field_whole x y r :
  contains ":" x = false → x ≠ (y ++ ":" ++ r)%string.
Proof.
  revert y. induction x as [|a x IH]; intros [|b y]; simpl; intros Hx H;
    try discriminate.
  - injection H as -> _. apply orb_false_iff in Hx as [Hx _].
    now rewrite Ascii.eqb_refl in Hx.
  - injection H as -> H. apply orb_false_iff in Hx as [_ Hx].
    now apply (IH y).
Qed.

Lemma join_inj l1 l2 :
  l1 ≠ [] → l2 ≠ [] →
  Forall (λ a, contains ":" a = false) l1 →
  Forall (λ a, contains ":" a = false) l2 →
  join ":" l1 = join ":" l2 → l1 = l2.
Proof.
  intros Hne1 Hne2 H1. revert l2 Hne1 Hne2.
  induction H1 as [|x l1 Hx H1 IH]; [easy|].
  intros [|y l2] _ Hne2 H2 Heq; [easy|].
  apply Forall_cons_iff in H2 as [Hy H2].
  destruct l1 as [|x' l1], l2 as [|y' l2].
  - simpl in Heq. now subst.
  - rewrite join_cons in Heq. change (join ":" [x]) with x in Heq.
    now apply field_whole in Heq.
  - rewrite join_cons in Heq. change (join ":" [y]) with y in Heq.
    symmetry in Heq. now apply field_whole in Heq.
  - rewrite !join_cons in Heq.
    apply field_split in Heq as [-> Heq]; auto.
    f_equal. apply IH; auto.
Qed.

(** C3 (as stated, refuted): two jobs that differ only in the order of
    their args have the same cache key. *)
Lemma reordered_args_same_key :
  job_id flags_ab = job_id flags_ba
  ∧ file flags_ab = file flags_ba ∧ compiler flags_ab = compiler flags_ba
  ∧ Permutation (args flags_ab) (args flags_ba)
  ∧ args flags_ab ≠ args flags_ba.
Proof.
  repeat split; try reflexivity; [apply perm_swap | discriminate].
Qed.

(** C3 (amended): on jobs whose file, compiler and args hold no ":", the
    cache keys of two jobs are equal exactly when their file, compiler and
    args (as an ordered sequence) are equal. *)
Theorem job_id_injective j1 j2 :
  colon_free j1 → colon_free j2 →
  job_id j1 = job_id j2 ↔
  file j1 = file j2 ∧ compiler j1 = compiler j2 ∧ args j1 = args j2.
Proof.
  intros (Hf1 & Hc1 & Ha1) (Hf2 & Hc2 & Ha2). split.
  - unfold job_id. intros H. apply join_inj in H.
    + now injection H.
    + easy.
    + easy.
    + simpl. now repeat constructor.
    + simpl. now repeat constructor.
  - unfold job_id. now intros (-> & -> & ->).
Qed.

Lemma job_id_injective_witness :
  job_id flags_o2_g = job_id flags_g_o2 ↔
  file flags_o2_g = file flags_g_o2 ∧ compiler flags_o2_g = compiler flags_g_o2
  ∧ args flags_o2_g = args flags_g_o2.
Proof.
  apply (job_id_injective flags_o2_g flags_g_o2);
    (split; [reflexivity | split; [reflexivity | repeat constructor]]).
Defined.

End CacheKey.

(** ** The job loop *)
Module Orchestrator.
Import ExecuteJobs Spec.

Section Run.
Variables (analyzer_script dir : string).
Variable analyzer : nat → list string → option (gmap string value).

Local Abbreviation process_job := (process_job analyzer_script dir analyzer).
Local Abbreviation run_jobs := (run_jobs analyzer_script dir analyzer).
Local Abbreviation state_after := (state_after analyzer_script dir analyzer).

(** What one round of the loop does to the state. *)
Lemma process_job_hit s j res :
  job_cache s !! job_id j = Some res →
  process_job s j =
    Done (enrich j (idx s) res)
         {| job_cache := job_cache s; cache_file := cache_file s;
            found_cached := found_cached s + 1; idx := idx s + 1;
            analyzer_calls := analyzer_calls s |}.
Proof. intros H. unfold ExecuteJobs.process_job. now rewrite H. Qed.

Lemma process_job_cache s j :
  let s' := final_state (process_job s j) in
  job_cache s ⊆ job_cache s'
  ∧ ((cache_file s' = cache_file s ∧ job_cache s' = job_cache s)
     ∨ cache_file s' = Some (job_cache s')).
Proof.
  unfold ExecuteJobs.process_job.
  destruct (job_cache s !! job_id j) as [res|] eqn:Hc; simpl; [auto|].
  destruct (analyzer _ _) as [res|]; simpl; [|auto].
  split; [|auto]. now apply insert_subseteq.
Qed.

Lemma process_job_done s j o s' :
  process_job s j = Done o s' →
  ∃ res, o = enrich j (idx s) res ∧ job_cache s' !! job_id j = Some res
         ∧ length (analyzer_calls s') ≤ length (analyzer_calls s) + 1.
Proof.
  unfold ExecuteJobs.process_job.
  destruct (job_cache s !! job_id j) as [res|] eqn:Hc.
  - intros [= <- <-]. exists res. simpl. repeat split; auto. lia.
  - destruct (analyzer _ _) as [res|]; [|discriminate].
    intros [= <- <-]. exists res. simpl. repeat split.
    + apply lookup_insert_eq.
    + rewrite length_app. simpl. lia.
Qed.

Lemma run_jobs_cache s jobs :
  let s' := final_state (run_jobs s jobs) in
  job_cache s ⊆ job_cache s'
  ∧ ((cache_file s' = cache_file s ∧ job_cache s' = job_cache s)
     ∨ cache_file s' = Some (job_cache s')).
Proof.
  revert s. induction jobs as [|j jobs IH]; intros s; simpl; [auto|].
  pose proof (process_job_cache s j) as [Hsub Hfile].
  destruct (process_job s j) as [o s1|e s1]; simpl in *; [|auto].
  specialize (IH s1). simpl in IH. destruct IH as [Hsub' Hfile'].
  destruct (run_jobs s1 jobs) as [os s2|e s2]; simpl in *.
  - split; [now transitivity (job_cache s1)|].
    destruct Hfile' as [[-> ->]|]; auto.
  - split; [now transitivity (job_cache s1)|].
    destruct Hfile' as [[-> ->]|]; auto.
Qed.

Lemma run_jobs_app s l1 l2 :
  run_jobs s (l1 ++ l2) =
    match run_jobs s l1 with
    | Raised e s1 => Raised e s1
    | Done os1 s1 =>
        match run_jobs s1 l2 with
        | Raised e s2 => Raised e s2
        | Done os2 s2 => Done (os1 ++ os2) s2
        end
    end.
Proof.
  revert s. induction l1 as [|j l1 IH]; intros s; simpl.
  - now destruct (run_jobs s l2).
  - destruct (process_job s j) as [o s1|e s1]; [|reflexivity].
    rewrite IH. destruct (run_jobs s1 l1) as [os1 s2|e s2]; [|reflexivity].
    now destruct (run_jobs s2 l2).
Qed.

(** The run up to job [m] continues the run up to job [n ≤ m]. *)
Lemma state_after_le s jobs n m :
  n ≤ m →
  ∃ rest, state_after s jobs m = final_state (run_jobs (state_after s jobs n) rest).
Proof.
  intros Hnm. unfold ExecuteJobs.state_after.
  rewrite <- (take_drop n (take m jobs)), take_take, Nat.min_l by assumption.
  rewrite run_jobs_app.
  destruct (run_jobs s (take n jobs)) as [os1 s1|e s1]; simpl.
  - exists (drop n (take m jobs)).
    now destruct (run_jobs s1 (drop n (take m jobs))).
  - now exists [].
Qed.

Lemma state_after_cons s j jobs o s1 n :
  process_job s j = Done o s1 →
  state_after s (j :: jobs) (S n) = state_after s1 jobs n.
Proof.
  intros H. unfold ExecuteJobs.state_after. simpl. rewrite H.
  now destruct (run_jobs s1 (take n jobs)).
Qed.

(** In a run that ends normally, job [n] is one round of the loop from
    the state after [n] jobs to the state after [n + 1] jobs, and its
    enriched record is the [n]-th of the output. *)
Lemma state_after_step s jobs outs s' n j :
  run_jobs s jobs = Done outs s' → jobs !! n = Some j →
  ∃ o, process_job (state_after s jobs n) j = Done o (state_after s jobs (S n))
       ∧ outs !! n = Some o.
Proof.
  revert s outs n. induction jobs as [|j0 jobs IH]; intros s outs n Hrun Hn;
    [discriminate|].
  simpl in Hrun. destruct (process_job s j0) as [o0 s1|e s1] eqn:Hstep;
    [|discriminate].
  destruct (run_jobs s1 jobs) as [os s2|e s2] eqn:Hrest; [|discriminate].
  injection Hrun as <- <-. destruct n as [|n].
  - injection Hn as ->. exists o0. split; [|reflexivity].
    unfold ExecuteJobs.state_after. simpl. now rewrite Hstep.
  - simpl in Hn. destruct (IH s1 os n Hrest Hn) as (o & Ho & Hout).
    exists o. rewrite !(state_after_cons s j0 jobs o0 s1) by assumption.
    now split.
Qed.

End Run.

(** The end-to-end test of the spec: three jobs, two of them alike,
    against an empty cache start the analyzer twice and reuse once. *)
Example three_jobs_two_measurements :
  let s := final_state (run_jobs "/repo/scripts/analyze-file.py" "/tmp" varying
                          (init None) [flags_o2_g; flags_g_o2; flags_o2_g]) in
  length (analyzer_calls s) = 2 ∧ found_cached s = 1%Z ∧ size (job_cache s) = 2.
Proof. vm_compute. auto. Qed.

(** C4: when a run ends normally and jobs [i < k] of the list have the
    same file, compiler and args, one and the same record [res] is merged
    into both enriched jobs; job [i] starts the analyzer at most once and
    job [k] not at all, and job [k] adds one to [found_cached]. *)
Theorem duplicate_jobs_measured_once script dir analyzer jobs s outs s' i k j1 j2 :
  ExecuteJobs.run_jobs script dir analyzer s jobs = Done outs s' →
  i < k → jobs !! i = Some j1 → jobs !! k = Some j2 →
  file j1 = file j2 → compiler j1 = compiler j2 → args j1 = args j2 →
  let after := ExecuteJobs.state_after script dir analyzer s jobs in
  ∃ res o1 o2,
    outs !! i = Some o1 ∧ outs !! k = Some o2
    ∧ o1 = enrich j1 (idx (after i)) res ∧ o2 = enrich j2 (idx (after k)) res
    ∧ res ⊆ o1 ∧ res ⊆ o2
    ∧ length (analyzer_calls (after (S i))) ≤ length (analyzer_calls (after i)) + 1
    ∧ analyzer_calls (after (S k)) = analyzer_calls (after k)
    ∧ found_cached (after (S k)) = (found_cached (after k) + 1)%Z.
Proof.
  intros Hrun Hik Hi Hk Hf Hc Ha after.
  assert (j2 = j1) as -> by (destruct j1, j2; simpl in *; congruence).
  destruct (state_after_step _ _ _ _ _ _ _ _ _ Hrun Hi) as (o1 & Hstep1 & Ho1).
  destruct (state_after_step _ _ _ _ _ _ _ _ _ Hrun Hk) as (o2 & Hstep2 & Ho2).
  fold after in Hstep1, Hstep2.
  destruct (process_job_done _ _ _ _ _ _ _ Hstep1) as (res & -> & Hres & Hcalls).
  assert (Hcached : job_cache (after k) !! job_id j1 = Some res).
  { destruct (state_after_le script dir analyzer s jobs (S i) k) as [rest Hrest];
      [lia|].
    fold after in Hrest. rewrite Hrest.
    eapply lookup_weaken; [exact Hres|]. apply run_jobs_cache. }
  rewrite (process_job_hit _ _ _ _ _ _ Hcached) in Hstep2.
  injection Hstep2 as <- Hafter.
  exists res, (enrich j1 (idx (after i)) res), (enrich j1 (idx (after k)) res).
  rewrite <- Hafter. simpl.
  repeat split; auto; apply map_union_subseteq_l.
Qed.

Lemma duplicate_jobs_measured_once_witness :
  let jobs := [flags_o2_g; flags_g_o2; flags_o2_g] in
  let after := state_after "/repo/scripts/analyze-file.py" "/tmp" varying (init None) jobs in
  ∃ (outs : list (gmap string value)) (res o1 o2 : gmap string value),
    outs !! 0 = Some o1 ∧ outs !! 2 = Some o2
    ∧ o1 = enrich flags_o2_g (idx (after 0)) res
    ∧ o2 = enrich flags_o2_g (idx (after 2)) res
    ∧ res ⊆ o1 ∧ res ⊆ o2
    ∧ length (analyzer_calls (after 1)) ≤ length (analyzer_calls (after 0)) + 1
    ∧ analyzer_calls (after 3) = analyzer_calls (after 2)
    ∧ found_cached (after 3) = (found_cached (after 2%nat) + 1)%Z.
Proof.
  intros jobs after. eexists.
  eapply (duplicate_jobs_measured_once "/repo/scripts/analyze-file.py" "/tmp" varying
            jobs (init None) _ _ 0 2 flags_o2_g flags_o2_g);
    [vm_compute; reflexivity | lia | reflexivity ..].
Defined.

(** C8: all along a run, whether it ends normally or dies of an
    exception, the cache only grows - a key once present keeps its record
    - and every round of the loop that changes the cache leaves the whole
    new cache in the cache file, so that after any number of jobs the file
    holds exactly the cache in memory. *)
Theorem cache_grows_and_is_persisted script dir analyzer disk jobs :
  let after := ExecuteJobs.state_after script dir analyzer (init disk) jobs in
  (∀ n m, n ≤ m → job_cache (after n) ⊆ job_cache (after m))
  ∧ (∀ n, job_cache (after (S n)) ≠ job_cache (after n) →
          cache_file (after (S n)) = Some (job_cache (after (S n))))
  ∧ (∀ n, load_cache (cache_file (after n)) = job_cache (after n)).
Proof.
  intros after. repeat split.
  - intros n m Hnm.
    destruct (state_after_le script dir analyzer (init disk) jobs n m Hnm) as [rest Hrest].
    fold after in Hrest. rewrite Hrest. apply run_jobs_cache.
  - intros n Hne.
    destruct (state_after_le script dir analyzer (init disk) jobs n (S n)) as [rest Hrest];
      [lia|].
    fold after in Hrest. rewrite Hrest in Hne |- *.
    destruct (run_jobs_cache script dir analyzer (after n) rest) as [_ [[_ Heq]|Hfile]];
      [contradiction | exact Hfile].
  - intros n. unfold after, ExecuteJobs.state_after.
    destruct (run_jobs_cache script dir analyzer (init disk) (take n jobs))
      as [_ [[-> ->] | ->]]; reflexivity.
Qed.

End Orchestrator.

(** * Further properties of the two scripts *)

(** ** More on the timing sampler *)
Module SamplerMore.
Import AnalyzeFile Spec FloatOrder Sampler.

Lemma cheapest_agree_cases ts :
  4 ≤ length ts →
  (∃ t0, ts !! 0 = Some t0 ∧ PrimFloat.eqb t0 0 = true
         ∧ cheapest_agree ts = inl ZeroDivisionError)
  ∨ ∃ b, cheapest_agree ts = inr b.
Proof.
  intros Hlen. unfold cheapest_agree.
  destruct ts as [|t0 [|t1 [|t2 [|t3 ts]]]]; simpl in Hlen; try lia.
  simpl. destruct (PrimFloat.eqb t0 0) eqn:E; eauto.
Qed.

(** Whatever the floats are, the loop keeps exactly the durations it
    observed, and it can only raise on a smallest sample equal to zero. *)
Lemma measure_loop_any call fuel ts calls :
  Permutation ts (samples call calls) → 21 - calls < fuel →
  ∃ n r, measure_loop call fuel ts calls = Some (n, r) ∧ 8 ≤ n
    ∧ match r with
      | inr ts' => Permutation ts' (samples call n)
      | inl e => e = ZeroDivisionError
                 ∧ ∃ t, t ∈ samples call n ∧ PrimFloat.eqb t 0 = true
      end.
Proof.
  revert ts calls. induction fuel as [|fuel IH]; intros ts calls Hperm Hfuel; [lia|].
  pose proof (Permutation_length Hperm) as Hlen. rewrite samples_length in Hlen.
  rewrite measure_loop_S, Hlen.
  assert (Hnext : ∀ ts0, Permutation ts0 (samples call calls) → calls ≤ 20 →
    ∃ n r, measure_loop call fuel (ts0 ++ [call calls]) (S calls) = Some (n, r)
      ∧ 8 ≤ n
      ∧ match r with
        | inr ts' => Permutation ts' (samples call n)
        | inl e => e = ZeroDivisionError
                   ∧ ∃ t, t ∈ samples call n ∧ PrimFloat.eqb t 0 = true
        end).
  { intros ts0 Hts0 Hle. apply IH; [|lia].
    rewrite samples_S. now apply Permutation_app_tail. }
  destruct (Nat.ltb_spec 20 calls) as [Hgt|Hle].
  { exists calls, (inr ts). repeat split; auto; lia. }
  destruct (Nat.leb_spec 8 calls) as [H8|H8]; [|now apply Hnext].
  assert (Hps : Permutation (sort ts) (samples call calls)) by now rewrite sort_perm.
  destruct (cheapest_agree_cases (sort ts)) as [(t0 & Ht0 & Hz & ->)|[[|] ->]].
  - rewrite sort_length. lia.
  - exists calls, (inl ZeroDivisionError). repeat split; auto.
    exists t0. split; [|exact Hz]. rewrite <- Hps.
    apply list_elem_of_lookup. eauto.
  - exists calls, (inr (sort ts)). auto.
  - now apply Hnext.
Qed.

(** X1: whatever floats the clock gives, [measure_time] ends; a value
    it returns is one of the durations it observed; the only exception it
    can die of is [ZeroDivisionError], and then one of the observed
    durations is zero: the look-ups [ts[3]] and [ts[0]] never leave the
    list. *)
Theorem measure_time_outcomes call :
  ∃ n r, measure_time call = Some (n, r)
    ∧ match r with
      | inr v => v ∈ samples call n
      | inl e => e = ZeroDivisionError
                 ∧ ∃ t, t ∈ samples call n ∧ PrimFloat.eqb t 0 = true
      end.
Proof.
  unfold measure_time.
  destruct (measure_loop_any call 22 [] 0) as (n & r & -> & H8 & Hr);
    [reflexivity | lia |].
  destruct r as [e|ts]; [now exists n, (inl e)|].
  assert (Hps : Permutation (sort ts) (samples call n)) by now rewrite sort_perm.
  destruct (sort ts) as [|v rest] eqn:Hsort.
  { apply Permutation_length in Hps. rewrite samples_length in Hps.
    simpl in Hps. lia. }
  exists n, (inr v). split; [reflexivity|]. rewrite <- Hps. left.
Qed.

(** With durations as a clock gives them, the loop goes on as long as
    the test on the sorted durations fails, and leaves before 21 samples
    only when it passes or raises. *)
Lemma measure_loop_exact call fuel ts calls :
  (∀ i, i < 21 → duration (call i)) →
  Permutation ts (samples call calls) → 21 - calls < fuel →
  ∃ n r, measure_loop call fuel ts calls = Some (n, r)
    ∧ (∀ k, calls ≤ k → 8 ≤ k → k < n →
         cheapest_agree (sort (samples call k)) = inr false)
    ∧ (n < 21 →
       cheapest_agree (sort (samples call n))
       = match r with inl e => inl e | inr _ => inr true end).
Proof.
  intros Hdur. revert ts calls.
  induction fuel as [|fuel IH]; intros ts calls Hperm Hfuel; [lia|].
  pose proof (Permutation_length Hperm) as Hlen. rewrite samples_length in Hlen.
  rewrite measure_loop_S, Hlen.
  assert (Hnext : ∀ ts0, Permutation ts0 (samples call calls) → calls ≤ 20 →
    (8 ≤ calls → cheapest_agree (sort (samples call calls)) = inr false) →
    ∃ n r, measure_loop call fuel (ts0 ++ [call calls]) (S calls) = Some (n, r)
      ∧ (∀ k, calls ≤ k → 8 ≤ k → k < n →
           cheapest_agree (sort (samples call k)) = inr false)
      ∧ (n < 21 →
         cheapest_agree (sort (samples call n))
         = match r with inl e => inl e | inr _ => inr true end)).
  { intros ts0 Hts0 Hle Hno.
    destruct (IH (ts0 ++ [call calls]) (S calls)) as (n & r & E & Hbefore & Hat).
    - rewrite samples_S. now apply Permutation_app_tail.
    - lia.
    - exists n, r. split; [exact E|]. split; [|exact Hat].
      intros k Hck H8 Hkn. destruct (Nat.eq_dec k calls) as [->|Hne]; [auto|].
      apply Hbefore; lia. }
  destruct (Nat.ltb_spec 20 calls) as [Hgt|Hle].
  { exists calls, (inr ts). split; [reflexivity|]. split; intros; lia. }
  destruct (Nat.leb_spec 8 calls) as [H8|H8].
  2:{ apply Hnext; auto; lia. }
  assert (Hp : Forall duration ts).
  { rewrite Hperm. apply samples_durations; auto; lia. }
  assert (Hsort : sort ts = sort (samples call calls)) by now apply sort_perm_eq.
  rewrite Hsort.
  destruct (cheapest_agree (sort (samples call calls))) as [e|[|]] eqn:Hb.
  - exists calls, (inl e). split; [reflexivity|]. split; [intros; lia|auto].
  - exists calls, (inr (sort (samples call calls))).
    split; [reflexivity|]. split; [intros; lia|auto].
  - rewrite <- Hsort. apply Hnext; auto. now rewrite sort_perm.
Qed.



Lemma sorted_head_zero l :
  Forall duration l → StronglySorted no_smaller l → 0%float ∈ l →
  l !! 0 = Some 0%float.
Proof.
  intros Hd Hs Hin. destruct Hs as [|h l Hs Hh]; [now apply elem_of_nil in Hin|].
  apply Forall_cons_iff in Hd as [Hdh Hd]. simpl. f_equal.
  destruct Hdh as [->|Hpos]; [reflexivity|]. exfalso.
  apply elem_of_cons in Hin as [Hin|Hin].
  - rewrite <- Hin in Hpos. rewrite ltb_irrefl in Hpos. discriminate.
  - rewrite List.Forall_forall in Hh. apply list_elem_of_In in Hin.
    specialize (Hh _ Hin). unfold no_smaller in Hh. congruence.
Qed.

(** X3: when one of the first 8 durations is zero (and the others are as
    a monotonic clock gives them), [measure_time] dies of
    [ZeroDivisionError] after exactly 8 executions of the invocation. *)
Theorem measure_time_zero_duration call :
  (∀ i, i < 21 → call i = 0%float ∨ PrimFloat.ltb 0 (call i) = true) →
  (∃ i, i < 8 ∧ call i = 0%float) →
  measure_time call = Some (8, inl ZeroDivisionError).
Proof.
  intros Hdur (i & Hi & Hzero).
  assert (Hagree : cheapest_agree (sort (samples call 8)) = inl ZeroDivisionError).
  { assert (Hd : Forall duration (samples call 8))
      by (apply samples_durations; [exact Hdur|lia]).
    assert (Hhead : sort (samples call 8) !! 0 = Some 0%float).
    { apply sorted_head_zero.
      - now rewrite sort_perm.
      - now apply sort_sorted.
      - rewrite sort_perm, <- Hzero. unfold samples.
        apply list_elem_of_In, in_map, in_seq. lia. }
    pose proof (sort_length (samples call 8)) as Hlen.
    rewrite samples_length in Hlen. unfold cheapest_agree. rewrite Hhead.
    destruct (sort (samples call 8) !! 3) as [t3|] eqn:H3; [reflexivity|].
    apply lookup_ge_None in H3. lia. }
  unfold measure_time.
  destruct (measure_loop_exact call 22 [] 0 Hdur) as (n & r & E & Hbefore & Hat);
    [reflexivity | lia |].
  destruct (measure_loop_total call 22 [] 0) as (n' & r' & E' & H8 & _ & _ & _);
    [reflexivity | lia |].
  rewrite E in E'. injection E' as <- <-. rewrite E.
  assert (n = 8) as ->.
  { destruct (Nat.eq_dec n 8) as [|Hne]; [assumption|].
    rewrite (Hbefore 8) in Hagree by lia. discriminate. }
  rewrite Hagree in Hat. destruct r as [e|ts].
  - specialize (Hat ltac:(lia)). now injection Hat as <-.
  - specialize (Hat ltac:(lia)). discriminate.
Qed.

Lemma measure_time_zero_duration_witness :
  measure_time instant_third = Some (8, inl ZeroDivisionError).
Proof.
  apply (measure_time_zero_duration instant_third).
  - intros i _. unfold instant_third. destruct (Nat.eqb i 2); [now left|now right].
  - exists 2. split; [lia|reflexivity].
Defined.

End SamplerMore.

(** ** More on reading lines *)
Module LinesMore.
Import AnalyzeFile Spec LinesSpec Lines.

Lemma readlines_from_lines n cur s :
  length s ≤ n → Forall (λ c, c ≠ LF ∧ c ≠ CR) cur →
  Forall read_line (readlines_from cur s).
Proof.
  revert cur s. induction n as [|n IH]; intros cur s Hn Hcur.
  - destruct s; [|simpl in Hn; lia]. simpl.
    destruct cur as [|c cur]; constructor; [|constructor].
    exists (c :: cur). split; [now right|assumption].
  - destruct s as [|c s].
    { simpl. destruct cur as [|c cur]; constructor; [|constructor].
      exists (c :: cur). split; [now right|assumption]. }
    simpl in Hn. simpl.
    assert (Hline : read_line (cur ++ [LF])) by (exists cur; split; [now left|assumption]).
    destruct (N.eqb_spec c LF) as [->|Hlf].
    { constructor; [exact Hline|]. apply IH; [lia|constructor]. }
    destruct (N.eqb_spec c CR) as [->|Hcr].
    { constructor; [exact Hline|].
      destruct s as [|c' s']; [constructor|]. simpl in Hn.
      destruct (N.eqb c' LF); apply IH; simpl; try lia; constructor. }
    apply IH; [lia|]. apply Forall_app. split; [assumption|]. now repeat constructor.
Qed.

Lemma readlines_from_concat cur s :
  Forall (λ c, c ≠ CR) s → concat (readlines_from cur s) = cur ++ s.
Proof.
  intros Hs. revert cur. induction Hs as [|c s Hc Hs IH]; intros cur; simpl.
  - destruct cur; simpl; now rewrite ?app_nil_r.
  - destruct (N.eqb_spec c LF) as [->|Hlf].
    + simpl. rewrite IH. simpl. now rewrite <- app_assoc.
    + destruct (N.eqb_spec c CR) as [->|_]; [contradiction|].
      rewrite IH. now rewrite <- app_assoc.
Qed.

(** X4: [readlines] hands over no empty line; every line is a body
    without "\n" and "\r" closed by "\n", or an unclosed non-empty body;
    and on a text without "\r" the lines put together are the text. *)
Theorem readlines_round_trip s :
  Forall read_line (readlines s)
  ∧ (Forall (λ c, c ≠ CR) s → concat (readlines s) = s).
Proof.
  split.
  - apply (readlines_from_lines (length s)); [lia|constructor].
  - intros Hs. unfold readlines. now rewrite readlines_from_concat.
Qed.

(** X5: whatever the preprocessor wrote, [line_count_raw] is at least -2
    and [line_count] lies between -1 and [line_count_raw + 1]; an output
    without any line gives exactly -2 and -1. *)
Theorem line_counts_bounds out :
  let '(raw, cnt) := line_counts out in
  (-2 ≤ raw ∧ -1 ≤ cnt ∧ cnt ≤ raw + 1)%Z
  ∧ (readlines out = [] → (raw, cnt) = (-2, -1)%Z).
Proof.
  rewrite line_counts_spec. unfold ident_lines.
  pose proof (List.filter_length_le search_ident (readlines out)) as Hle.
  split; [lia|]. intros ->. reflexivity.
Qed.

End LinesMore.

(** ** More on the lines of the symbol dump *)
Module SplitlinesMore.
Import AnalyzeFile Spec.

Lemma splitlines_from_clean n cur s :
  length s ≤ n → Forall (λ c, is_linebreak c = false) cur →
  Forall (Forall (λ c, is_linebreak c = false)) (splitlines_from cur s).
Proof.
  revert cur s. induction n as [|n IH]; intros cur s Hn Hcur.
  - destruct s; [|simpl in Hn; lia]. simpl.
    destruct cur as [|c0 cur]; [constructor | constructor; [assumption|constructor]].
  - destruct s as [|c s].
    { simpl. destruct cur as [|c0 cur]; [constructor | constructor; [assumption|constructor]]. }
    simpl in Hn. simpl. destruct (is_linebreak c) eqn:Hc.
    + constructor; [assumption|].
      destruct (N.eqb c CR); [|apply IH; [lia|constructor]].
      destruct s as [|c' s']; [constructor|]. simpl in Hn.
      destruct (N.eqb c' LF); apply IH; simpl; try lia; constructor.
    + apply IH; [lia|]. apply Forall_app. split; [assumption|]. now repeat constructor.
Qed.

Lemma splitlines_from_join cur s :
  Forall (λ c, is_linebreak c = true → c = LF) s →
  ∃ tl, (tl = [] ∨ tl = [LF])
        ∧ concat (map (λ l, l ++ [LF]) (splitlines_from cur s)) = cur ++ s ++ tl.
Proof.
  intros Hs. revert cur. induction Hs as [|c s Hc Hs IH]; intros cur; simpl.
  - destruct cur as [|c cur].
    + exists []. split; [now left|reflexivity].
    + exists [LF]. split; [now right|]. simpl. now rewrite app_nil_r.
  - destruct (is_linebreak c) eqn:Hbreak.
    + rewrite (Hc eq_refl). change (N.eqb LF CR) with false. cbv iota.
      destruct (IH []) as (tl & Htl & Heq). exists tl. split; [exact Htl|].
      simpl. rewrite Heq. simpl. now rewrite <- app_assoc.
    + destruct (IH (cur ++ [c])) as (tl & Htl & Heq). exists tl.
      split; [exact Htl|]. rewrite Heq. now rewrite <- app_assoc.
Qed.

(** X6: no line of [splitlines] holds a line-break character (so the
    pattern never meets a newline inside a line), and on a text whose only
    line breaks are "\n" the lines, each closed by "\n", put together are
    the text up to one final "\n". *)
Theorem splitlines_round_trip s :
  Forall (Forall (λ c, is_linebreak c = false)) (splitlines s)
  ∧ (Forall (λ c, is_linebreak c = true → c = LF) s →
     ∃ tl, (tl = [] ∨ tl = [LF])
           ∧ concat (map (λ l, l ++ [LF]) (splitlines s)) = s ++ tl).
Proof.
  split.
  - apply (splitlines_from_clean (length s)); [lia|constructor].
  - intros Hs. apply (splitlines_from_join [] s Hs).
Qed.

End SplitlinesMore.

(** ** More on the symbol loop and the whole run *)
Module EngineMore.
Import AnalyzeFile Spec Lines SymbolLines Engine Sampler.

Section Loop.
Variable unicode_word : N → bool.

(** X7: [match_line] finds groups exactly on the lines of the grammar,
    a line has at most one reading, and on a line that [splitlines]
    produced the name is the rest of the line: at least one character,
    after a value, blanks, the type character and one blank. *)
Theorem match_line_characterised l st sn :
  (match_line unicode_word l = Some (st, sn) ↔ line_grammar unicode_word l st sn)
  ∧ (line_grammar unicode_word l st sn →
     ∀ st' sn', line_grammar unicode_word l st' sn' → st' = st ∧ sn' = sn)
  ∧ (match_line unicode_word l = Some (st, sn) →
     Forall (λ c, is_linebreak c = false) l →
     1 ≤ length sn ∧ length sn + 3 ≤ length l
     ∧ ∃ v sp, l = v ++ sp ++ [st; SP] ++ sn
               ∧ Forall (λ c, is_alnum c = true) v
               ∧ sp ≠ [] ∧ Forall (λ c, c = SP) sp).
Proof.
  split; [apply match_line_spec|]. split.
  - intros Hg st' sn' Hg'.
    destruct (line_grammar_unique unicode_word l st sn st' sn' Hg Hg') as [-> ->].
    now split.
  - intros Hm Hclean. apply match_line_sound in Hm
      as (v & sp & tl & -> & Hv & Hsp & Hsps & Hst & Hsn & Hnl & Htl).
    assert (tl = []) as ->.
    { destruct Htl as [->| ->]; [reflexivity|]. exfalso.
      rewrite !Forall_app in Hclean. destruct Hclean as (_ & _ & _ & _ & Hlf).
      apply Forall_cons_iff in Hlf as [Hlf _]. discriminate. }
    rewrite app_nil_r. split; [destruct sn; [easy|simpl; lia]|].
    split.
    + rewrite !length_app. simpl. destruct sp; [easy|]. simpl. lia.
    + now exists v, sp.
Qed.

(** What a line adds to the counters, whatever they are. *)
Lemma sym_step_inr acc l acc' :
  sym_step unicode_word acc l = inr acc' →
  ∃ st sn, line_grammar unicode_word l st sn ∧ st_in st known_types = true
           ∧ acc' = plus acc (counted [(st, sn)]).
Proof.
  intros Hstep. pose proof Hstep as Hbody. unfold sym_step in Hbody.
  destruct (match_line unicode_word l) as [[st sn]|] eqn:Hm; [|discriminate].
  apply match_line_sound in Hm. exists st, sn.
  assert (Hk : st_in st known_types = true).
  { unfold known_types, st_in in *. rewrite !existsb_app.
    destruct (existsb (N.eqb st) undef_types); [reflexivity|].
    destruct (existsb (N.eqb st) data_types); [reflexivity|].
    destruct (existsb (N.eqb st) code_types); [reflexivity|discriminate]. }
  split; [exact Hm|]. split; [exact Hk|].
  rewrite (sym_step_parsed unicode_word acc l st sn Hm Hk) in Hstep.
  now injection Hstep.
Qed.

Lemma plus_counted_nil acc : plus acc (counted []) = acc.
Proof.
  unfold counted, class_count, class_size, of_class, list_sum.
  destruct acc. apply Symbols_eq;
    cbn [plus List.filter length map fold_right undef_sym_cnt undef_sym_size
         data_sym_cnt data_sym_size code_sym_cnt code_sym_size]; lia.
Qed.

Lemma sym_loop_inr acc lines s :
  sym_loop unicode_word acc lines = inr s →
  ∃ ps, Forall2 (λ l p, line_grammar unicode_word l p.1 p.2) lines ps
        ∧ Forall (λ p, st_in p.1 known_types = true) ps
        ∧ s = plus acc (counted ps).
Proof.
  revert acc. induction lines as [|l lines IH]; intros acc Hloop.
  - exists []. split; [constructor|]. split; [constructor|].
    simpl in Hloop. injection Hloop as <-. symmetry. apply plus_counted_nil.
  - simpl in Hloop.
    destruct (sym_step unicode_word acc l) as [e|acc'] eqn:Hstep; [discriminate|].
    apply sym_step_inr in Hstep as (st & sn & Hg & Hk & ->).
    apply IH in Hloop as (ps & Hall & Hks & ->).
    exists ((st, sn) :: ps). split; [now constructor|]. split; [now constructor|].
    rewrite (counted_cons (st, sn) ps).
    apply Symbols_eq; cbn [plus undef_sym_cnt undef_sym_size
      data_sym_cnt data_sym_size code_sym_cnt code_sym_size]; lia.
Qed.

Lemma class_count_cons cls p ps :
  class_count cls (p :: ps)
  = ((if st_in p.1 cls then 1 else 0) + class_count cls ps)%Z.
Proof.
  unfold class_count, of_class. cbn [List.filter].
  destruct (st_in p.1 cls); cbn [length]; lia.
Qed.

Lemma class_size_cons cls p ps :
  class_size cls (p :: ps)
  = ((if st_in p.1 cls then Z.of_nat (length p.2) else 0) + class_size cls ps)%Z.
Proof.
  unfold class_size, of_class, list_sum. cbn [List.filter].
  destruct (st_in p.1 cls); cbn [map fold_right]; lia.
Qed.

Lemma counted_facts ps :
  Forall (λ p, st_in p.1 known_types = true ∧ p.2 ≠ []) ps →
  (class_count undef_types ps + class_count data_types ps
   + class_count code_types ps = Z.of_nat (length ps))%Z
  ∧ ∀ cls, (0 ≤ class_count cls ps ∧ class_count cls ps ≤ class_size cls ps)%Z.
Proof.
  induction 1 as [|[st sn] ps [Hk Hne] Hall [IHt IHs]].
  - split; [reflexivity|]. intros cls. unfold class_count, class_size. simpl. lia.
  - split.
    + rewrite !class_count_cons. cbn [fst length].
      destruct (known_types_cases st Hk)
        as [(-> & -> & ->)|[(-> & -> & ->)|(-> & -> & ->)]]; lia.
    + intros cls. rewrite class_count_cons, class_size_cons. cbn [fst snd].
      specialize (IHs cls). destruct sn as [|c sn]; [easy|].
      destruct (st_in st cls); simpl length; lia.
Qed.

(** X8: when the loop over the symbol dump ends normally, every line was
    counted in exactly one class - the three counts add up to the number
    of lines - and in each class the size is at least the count, as a
    name has at least one character. *)
Theorem nm_symbols_totals dump s :
  nm_symbols unicode_word dump = inr s →
  (undef_sym_cnt s + data_sym_cnt s + code_sym_cnt s
   = Z.of_nat (length (splitlines dump)))%Z
  ∧ (0 ≤ undef_sym_cnt s ≤ undef_sym_size s)%Z
  ∧ (0 ≤ data_sym_cnt s ≤ data_sym_size s)%Z
  ∧ (0 ≤ code_sym_cnt s ≤ code_sym_size s)%Z.
Proof.
  unfold nm_symbols. intros Hloop.
  apply sym_loop_inr in Hloop as (ps & Hall & Hk & ->).
  assert (Hps : Forall (λ p, st_in p.1 known_types = true ∧ p.2 ≠ []) ps).
  { clear -Hall Hk. induction Hall as [|l p lines ps Hg Hall IH]; [constructor|].
    apply Forall_cons_iff in Hk as [Hk Hks]. constructor; [|auto].
    split; [exact Hk|]. destruct Hg as (v & sp & tl & _ & _ & _ & _ & _ & Hsn & _).
    exact Hsn. }
  destruct (counted_facts ps Hps) as [Htotal Hsizes].
  rewrite (Forall2_length _ _ _ Hall).
  pose proof (Hsizes undef_types). pose proof (Hsizes data_types).
  pose proof (Hsizes code_types).
  cbn [plus no_symbols counted undef_sym_cnt undef_sym_size
       data_sym_cnt data_sym_size code_sym_cnt code_sym_size]. lia.
Qed.

Lemma sym_step_shift acc l acc' acc0 :
  sym_step unicode_word acc l = inr acc' →
  ∃ d, acc' = plus acc d ∧ sym_step unicode_word acc0 l = inr (plus acc0 d).
Proof.
  intros Hstep. apply sym_step_inr in Hstep as (st & sn & Hg & Hk & ->).
  exists (counted [(st, sn)]). split; [reflexivity|].
  now apply sym_step_parsed.
Qed.

Lemma plus_swap a d1 d2 : plus (plus a d1) d2 = plus (plus a d2) d1.
Proof.
  apply Symbols_eq; cbn [plus undef_sym_cnt undef_sym_size
    data_sym_cnt data_sym_size code_sym_cnt code_sym_size]; lia.
Qed.

(** X9: the counters do not depend on the order of the lines: when the
    loop ends normally on some lines, it ends with the same six counters
    on any reordering of them. *)
Theorem sym_loop_order_irrelevant lines lines' acc s :
  Permutation lines lines' →
  sym_loop unicode_word acc lines = inr s →
  sym_loop unicode_word acc lines' = inr s.
Proof.
  intros Hperm. revert acc s.
  induction Hperm as [|l lines lines' Hperm IH|l1 l2 lines|lines1 lines2 lines3 _ IH1 _ IH2];
    intros acc s Hloop.
  - exact Hloop.
  - simpl in *. destruct (sym_step unicode_word acc l) as [e|acc']; [discriminate|].
    now apply IH.
  - simpl in *.
    destruct (sym_step unicode_word acc l2) as [e|acc1] eqn:H1; [discriminate|].
    destruct (sym_step unicode_word acc1 l1) as [e|acc2] eqn:H2; [discriminate|].
    destruct (sym_step_shift _ _ _ acc H2) as (d2 & Hacc2 & Hstep2).
    destruct (sym_step_shift _ _ _ (plus acc d2) H1) as (d1 & Hacc1 & Hstep1).
    rewrite Hstep2, Hstep1. subst acc1 acc2. now rewrite plus_swap.
  - now apply IH2, IH1.
Qed.

(** X10: the loop stops at the first line it cannot take and tells which
    of the two asserts failed: "could not parse line" when that line has
    no reading, "unknown symbol type" when it reads with a type character
    outside the three classes; the lines after it play no part. *)
Theorem sym_loop_first_bad_line good l rest acc :
  Forall (λ g, ∃ st sn, line_grammar unicode_word g st sn
                        ∧ st_in st known_types = true) good →
  bad_line unicode_word l →
  sym_loop unicode_word acc (good ++ l :: rest)
  = inl (AssertionError
           (match match_line unicode_word l with
            | Some _ => "unknown symbol type"
            | None => "could not parse line"
            end))
  ∧ ((¬ ∃ st sn, line_grammar unicode_word l st sn) ↔
     match_line unicode_word l = None).
Proof.
  intros Hgood Hbad. split.
  - revert acc. induction Hgood as [|g good (st & sn & Hg & Hk) Hgood IH]; intros acc.
    + simpl. unfold sym_step. destruct Hbad as [Hno|(st & sn & Hg & Hst)].
      * destruct (match_line unicode_word l) as [[st sn]|] eqn:E; [|reflexivity].
        exfalso. apply Hno. exists st, sn. now apply match_line_sound.
      * rewrite (match_line_complete _ _ _ _ Hg).
        assert (st_in st undef_types = false ∧ st_in st data_types = false
                ∧ st_in st code_types = false) as (-> & -> & ->); [|reflexivity].
        unfold known_types, st_in in *.
        now rewrite !existsb_app, !orb_false_iff in Hst.
    + simpl. rewrite (sym_step_parsed _ _ _ _ _ Hg Hk). apply IH.
  - split.
    + intros Hno. destruct (match_line unicode_word l) as [[st sn]|] eqn:E;
        [|reflexivity].
      exfalso. apply Hno. exists st, sn. now apply match_line_sound.
    + intros Hnone (st & sn & Hg). apply match_line_complete in Hg. congruence.
Qed.



End Loop.

Lemma nm_symbols_totals_witness :
  ∃ s, nm_symbols ascii_only three_symbols = inr s
  ∧ (undef_sym_cnt s + data_sym_cnt s + code_sym_cnt s
     = Z.of_nat (length (splitlines three_symbols)))%Z
  ∧ (0 ≤ undef_sym_cnt s ≤ undef_sym_size s)%Z
  ∧ (0 ≤ data_sym_cnt s ≤ data_sym_size s)%Z
  ∧ (0 ≤ code_sym_cnt s ≤ code_sym_size s)%Z.
Proof.
  eexists. split; [vm_compute; reflexivity|].
  apply (nm_symbols_totals ascii_only three_symbols). vm_compute. reflexivity.
Defined.

Lemma sym_loop_first_bad_line_witness :
  sym_loop ascii_only no_symbols ([str "0000 T foo"] ++ str "0000 X qux" :: [str "junk"])
  = inl (AssertionError
           (match match_line ascii_only (str "0000 X qux") with
            | Some _ => "unknown symbol type"
            | None => "could not parse line"
            end))
  ∧ ((¬ ∃ st sn, line_grammar ascii_only (str "0000 X qux") st sn) ↔
     match_line ascii_only (str "0000 X qux") = None).
Proof.
  apply (sym_loop_first_bad_line ascii_only [str "0000 T foo"] (str "0000 X qux")
           [str "junk"] no_symbols).
  - repeat constructor. exists (ord "T"), (str "foo").
    split; [apply match_line_sound|]; reflexivity.
  - right. exists (ord "X"), (str "qux").
    split; [apply match_line_sound|]; reflexivity.
Defined.

Lemma sym_loop_order_irrelevant_witness :
  ∃ s, sym_loop ascii_only no_symbols
         [str "0000 D bar"; str "0000 T foo"; str "0000 U baz"] = inr s.
Proof.
  eexists.
  apply (sym_loop_order_irrelevant ascii_only
           [str "0000 T foo"; str "0000 D bar"; str "0000 U baz"]
           [str "0000 D bar"; str "0000 T foo"; str "0000 U baz"] no_symbols).
  - apply perm_swap.
  - vm_compute. reflexivity.
Defined.


End EngineMore.

(** ** The checks on the arguments *)
Module ArgsMore.
Import AnalyzeFileArgs.

Lemma rfind_from_spec c p i last :
  (rfind_from c p i last = last ∧ c ∉ p)
  ∨ ∃ k, rfind_from c p i last = (i + Z.of_nat k)%Z
         ∧ p !! k = Some c ∧ c ∉ drop (S k) p.
Proof.
  revert i last. induction p as [|x p IH]; intros i last; simpl.
  - left. split; [reflexivity|]. apply not_elem_of_nil.
  - destruct (IH (i + 1)%Z (if N.eqb x c then i else last))
      as [[Hr Hnot]|(k & Hr & Hk & Hnot)].
    + destruct (N.eqb_spec x c) as [->|Hne].
      * right. exists 0. rewrite Hr. split; [lia|]. split; [reflexivity|].
        now rewrite drop_0.
      * left. split; [exact Hr|]. apply not_elem_of_cons. split; congruence.
    + right. exists (S k). rewrite Hr. split; [lia|]. now split.
Qed.

Lemma rfind_spec c p :
  (rfind c p = (-1)%Z ∧ c ∉ p)
  ∨ ∃ k, rfind c p = Z.of_nat k ∧ p !! k = Some c ∧ c ∉ drop (S k) p.
Proof.
  unfold rfind. destruct (rfind_from_spec c p 0 (-1)) as [?|(k & Hr & ?)]; [now left|].
  right. exists k. rewrite Hr. split; [lia|assumption].
Qed.

Lemma elem_of_drop_inv {A} (x : A) n l : x ∈ drop n l → x ∈ l.
Proof.
  intros Hx. apply list_elem_of_lookup in Hx as [i Hi].
  rewrite lookup_drop in Hi. apply list_elem_of_lookup. eauto.
Qed.

(** The last occurrence is where the character is with none after it. *)
Lemma rfind_at c a b : c ∉ b → rfind c (a ++ c :: b) = Z.of_nat (length a).
Proof.
  intros Hb. destruct (rfind_spec c (a ++ c :: b)) as [[_ Hnot]|(k & -> & Hk & Hnot)].
  - exfalso. apply Hnot. apply elem_of_app. right. left.
  - f_equal. destruct (Nat.lt_trichotomy k (length a)) as [Hlt|[->|Hgt]];
      [|reflexivity|].
    + exfalso. apply Hnot. apply list_elem_of_lookup. exists (length a - S k).
      rewrite lookup_drop. apply list_lookup_middle. lia.
    + exfalso. apply Hb. apply list_elem_of_lookup. exists (k - S (length a)).
      rewrite lookup_app_r in Hk by lia.
      replace (k - length a) with (S (k - S (length a))) in Hk by lia. exact Hk.
Qed.

Lemma rfind_before c a b : c ∉ b → (rfind c (a ++ b) < Z.of_nat (length a))%Z.
Proof.
  intros Hb. destruct (rfind_spec c (a ++ b)) as [[-> _]|(k & -> & Hk & _)]; [lia|].
  destruct (Nat.lt_ge_cases k (length a)) as [Hlt|Hge]; [lia|].
  exfalso. apply Hb. rewrite lookup_app_r in Hk by lia.
  apply list_elem_of_lookup. eauto.
Qed.

(** X13: [splitext] cuts the path in two without losing a character; the
    extension is empty or starts at a dot and holds no other dot and no
    slash; and a path without a dot has no extension. *)
Theorem splitext_parts p :
  (splitext p).1 ++ (splitext p).2 = p
  ∧ ((splitext p).2 = []
     ∨ (∃ e, (splitext p).2 = DOT :: e ∧ (DOT ∉ e) ∧ (SLASH ∉ e)))
  ∧ (DOT ∉ p → (splitext p).2 = []).
Proof.
  unfold splitext.
  destruct (rfind_spec DOT p) as [[Hd Hnodot]|(kd & Hd & Hkd & Hafter)]; rewrite Hd.
  - assert (Hle : (rfind SLASH p <? -1)%Z = false).
    { apply Z.ltb_ge. destruct (rfind_spec SLASH p) as [[-> _]|(k & -> & _)]; lia. }
    rewrite Hle. simpl. rewrite app_nil_r. auto.
  - destruct (rfind SLASH p <? Z.of_nat kd)%Z eqn:Hlt;
      [|simpl; rewrite app_nil_r; split; [reflexivity|]; split; [now left|];
        intros Hno; exfalso; apply Hno; apply list_elem_of_lookup; eauto].
    destruct (existsb _ _);
      [|simpl; rewrite app_nil_r; split; [reflexivity|]; split; [now left|];
        intros Hno; exfalso; apply Hno; apply list_elem_of_lookup; eauto].
    rewrite Nat2Z.id. simpl. split; [apply take_drop|]. split.
    + right. exists (drop (S kd) p). split.
      * apply (drop_S _ _ _ Hkd).
      * split; [exact Hafter|].
        apply Z.ltb_lt in Hlt.
        destruct (rfind_spec SLASH p) as [[_ Hno]|(ks & Hs & _ & Hno)].
        -- intros Hin. apply Hno. now apply elem_of_drop_inv in Hin.
        -- rewrite Hs in Hlt. intros Hin. apply Hno.
           replace (S kd) with (S ks + (S kd - S ks)) in Hin by lia.
           rewrite <- drop_drop in Hin. now apply elem_of_drop_inv in Hin.
    + intros Hno. exfalso. apply Hno. apply list_elem_of_lookup. eauto.
Qed.

(** The extension of a name whose last component has a character other
    than a dot before its last dot. *)
Lemma splitext_of_name a c b e :
  c ≠ DOT → SLASH ∉ c :: b → DOT ∉ e → SLASH ∉ e →
  splitext (a ++ c :: b ++ DOT :: e) = (a ++ c :: b, DOT :: e).
Proof.
  intros Hc Hslash Hdot Hse. unfold splitext.
  assert (Hd : rfind DOT (a ++ c :: b ++ DOT :: e) = Z.of_nat (length (a ++ c :: b))).
  { rewrite <- (rfind_at DOT (a ++ c :: b) e Hdot). now rewrite <- app_assoc. }
  assert (Hs : (rfind SLASH (a ++ c :: b ++ DOT :: e) < Z.of_nat (length a))%Z).
  { apply rfind_before. rewrite app_comm_cons. intros Hin.
    apply elem_of_app in Hin as [Hin|Hin]; [now apply Hslash|].
    apply elem_of_cons in Hin as [Hin|Hin]; [discriminate|now apply Hse]. }
  assert (Hs0 : (-1 ≤ rfind SLASH (a ++ c :: b ++ DOT :: e))%Z).
  { destruct (rfind_spec SLASH (a ++ c :: b ++ DOT :: e)) as [[-> _]|(k & -> & _)]; lia. }
  rewrite Hd. rewrite length_app in *. simpl length in *.
  replace (rfind SLASH (a ++ c :: b ++ DOT :: e) <? Z.of_nat (length a + S (length b)))%Z
    with true by (symmetry; apply Z.ltb_lt; lia).
  set (ks := rfind SLASH (a ++ c :: b ++ DOT :: e)) in *.
  assert (Hex : existsb (λ x, negb (N.eqb x DOT))
                  (slice (a ++ c :: b ++ DOT :: e) (ks + 1)
                     (Z.of_nat (length a + S (length b)))) = true).
  { apply existsb_exists. exists c. split; [|now destruct (N.eqb_spec c DOT)].
    apply list_elem_of_In, list_elem_of_lookup.
    exists (length a - Z.to_nat (ks + 1)). unfold slice.
    rewrite lookup_take_lt by lia. rewrite lookup_drop.
    apply list_lookup_middle. lia. }
  rewrite Hex, Nat2Z.id.
  replace (length a + S (length b)) with (length (a ++ c :: b))
    by (rewrite length_app; reflexivity).
  rewrite app_comm_cons, app_assoc.
  now rewrite take_app_length, drop_app_length.
Qed.

(** X14: a file passes the extension check as a system header when its
    name has no dot; a name whose last component ends in a dot followed
    by [e], after at least one character that is not a dot, passes
    exactly when [e] starts with "c" (a source) or with "h" (a header);
    and a file is never taken for two of source, header and system
    header at once. *)
Theorem extension_check file :
  (DOT ∉ file →
   is_system file = true ∧ is_source file = false ∧ is_header file = false)
  ∧ (∀ a c b e, file = a ++ c :: b ++ DOT :: e →
       c ≠ DOT → SLASH ∉ c :: b → DOT ∉ e → SLASH ∉ e →
       is_system file = false
       ∧ is_source file = startswith e (str "c")
       ∧ is_header file = startswith e (str "h"))
  ∧ (is_source file && is_header file = false
     ∧ is_source file && is_system file = false
     ∧ is_header file && is_system file = false).
Proof.
  unfold is_system, is_source, is_header. split; [|split].
  - intros Hno. destruct (splitext_parts file) as (_ & _ & Hext).
    rewrite (Hext Hno). repeat split; reflexivity.
  - intros a c b e -> Hc Hs Hd Hse.
    rewrite (splitext_of_name a c b e Hc Hs Hd Hse). simpl.
    repeat split; reflexivity.
  - change (str ".c") with [46; 99]%N. change (str ".h") with [46; 104]%N.
    destruct (splitext file).2 as [|x [|y ext]]; simpl;
      rewrite ?andb_false_r; try (repeat split; reflexivity).
    destruct (N.eqb x 46), (N.eqb_spec y 99), (N.eqb_spec y 104); subst;
      try discriminate; simpl; rewrite ?andb_false_r; repeat split; reflexivity.
Qed.

Lemma startswith_spec s prefix :
  startswith s prefix = true ↔ ∃ rest, s = prefix ++ rest.
Proof.
  revert s. induction prefix as [|c prefix IH]; intros s.
  - split; [intros _; now exists s|]. intros _. now destruct s.
  - destruct s as [|x s]; simpl.
    + split; [discriminate|]. intros [rest Hrest]. discriminate.
    + rewrite andb_true_iff, N.eqb_eq, IH. split.
      * intros [-> [rest ->]]. now exists rest.
      * intros [rest [= -> ->]]. split; [reflexivity|]. now exists rest.
Qed.

Section Checks.
Variable path_exists : text → bool.

(** X15: the arguments pass the four asserts exactly when the compiler
    path starts with a slash and exists, the extension of the file is
    empty or starts with ".c" or ".h", and the scratch directory exists;
    otherwise the script dies of an [AssertionError], and an absolute
    path is asked for before the file system is looked at. *)
Theorem check_args_accepts compiler file tmp_dir :
  (check_args path_exists compiler file tmp_dir = inr tt ↔
   (∃ rest, compiler = SLASH :: rest) ∧ path_exists compiler = true
   ∧ ((splitext file).2 = []
      ∨ (∃ rest, (splitext file).2 = str ".c" ++ rest)
      ∨ (∃ rest, (splitext file).2 = str ".h" ++ rest))
   ∧ path_exists tmp_dir = true)
  ∧ (∀ e, check_args path_exists compiler file tmp_dir = inl e →
          ∃ msg, e = AssertionError msg)
  ∧ (isabs compiler = false →
     check_args path_exists compiler file tmp_dir
     = inl (AssertionError "compiler path must be absolute! (to prevent lookup dominating time measurement)")).
Proof.
  unfold check_args. split; [|split].
  - assert (H1 : (∃ rest, compiler = SLASH :: rest) ↔ isabs compiler = true)
      by (symmetry; apply (startswith_spec compiler [SLASH])).
    assert (H2 : (∃ rest, (splitext file).2 = str ".c" ++ rest) ↔ is_source file = true)
      by (symmetry; apply startswith_spec).
    assert (H3 : (∃ rest, (splitext file).2 = str ".h" ++ rest) ↔ is_header file = true)
      by (symmetry; apply startswith_spec).
    assert (Hsys : (splitext file).2 = [] ↔ is_system file = true).
    { unfold is_system. destruct (splitext file).2; split; congruence. }
    rewrite H1, H2, H3, Hsys.
    destruct (isabs compiler), (path_exists compiler), (is_source file),
      (is_header file), (is_system file), (path_exists tmp_dir); simpl;
      intuition congruence.
  - destruct (isabs compiler), (path_exists compiler),
      (is_source file || is_header file || is_system file),
      (path_exists tmp_dir); simpl; intros e He; try discriminate;
      injection He as <-; eauto.
  - intros ->. reflexivity.
Qed.

End Checks.

End ArgsMore.

(** ** More on the job loop *)
Module OrchestratorMore.
Import ExecuteJobs Spec JobsSpec Orchestrator.

Lemma ended_normally_eq o :
  ended_normally o = true → o = Done (outputs o) (final_state o).
Proof. now destruct o. Qed.


Section Run.
Variables (analyzer_script dir : string).
Variable analyzer : nat → list string → option (gmap string value).

Local Abbreviation process_job := (process_job analyzer_script dir analyzer).
Local Abbreviation run_jobs := (run_jobs analyzer_script dir analyzer).
Local Abbreviation argv := (analyzer_argv analyzer_script dir).

(** The three ways one round of the loop can go. *)
Lemma process_job_cases s j :
  (∃ res, job_cache s !! job_id j = Some res
          ∧ process_job s j = Done (enrich j (idx s) res) (reused s 1))
  ∨ (job_cache s !! job_id j = None
     ∧ ∃ res, analyzer (length (analyzer_calls s)) (argv j) = Some res
       ∧ process_job s j =
           Done (enrich j (idx s) res)
                {| job_cache := <[job_id j := res]> (job_cache s);
                   cache_file := Some (<[job_id j := res]> (job_cache s));
                   found_cached := found_cached s;
                   idx := idx s + 1;
                   analyzer_calls := analyzer_calls s ++ [argv j] |})
  ∨ (job_cache s !! job_id j = None
     ∧ analyzer (length (analyzer_calls s)) (argv j) = None
     ∧ process_job s j =
         Raised CalledProcessError
                {| job_cache := job_cache s;
                   cache_file := cache_file s;
                   found_cached := found_cached s;
                   idx := idx s;
                   analyzer_calls := analyzer_calls s ++ [argv j] |}).
Proof.
  unfold ExecuteJobs.process_job, analyzer_argv.
  destruct (job_cache s !! job_id j) as [res|] eqn:Hc.
  - left. exists res. split; reflexivity.
  - right. destruct (analyzer _ _) as [res|] eqn:Ha.
    + left. split; [reflexivity|]. exists res. split; reflexivity.
    + right. repeat split; reflexivity.
Qed.

Lemma reused_reused s n m : reused (reused s n) m = reused s (n + m).
Proof. unfold reused. simpl. f_equal; lia. Qed.

Lemma run_jobs_cons s j jobs :
  run_jobs s (j :: jobs) =
    match process_job s j with
    | Raised e s' => Raised e s'
    | Done o s' =>
        match run_jobs s' jobs with
        | Raised e s'' => Raised e s''
        | Done os s'' => Done (o :: os) s''
        end
    end.
Proof. reflexivity. Qed.

Lemma run_jobs_cons_done s j jobs outs s' :
  run_jobs s (j :: jobs) = Done outs s' →
  ∃ o s1 os, process_job s j = Done o s1 ∧ run_jobs s1 jobs = Done os s'
             ∧ outs = o :: os.
Proof.
  rewrite run_jobs_cons. destruct (process_job s j) as [o s1|e s1]; [|discriminate].
  destruct (run_jobs s1 jobs) as [os s2|e s2] eqn:Hrest; [|discriminate].
  intros [= <- <-]. now exists o, s1, os.
Qed.

Lemma process_job_step s j o s1 :
  process_job s j = Done o s1 →
  ∃ res, o = enrich j (idx s) res ∧ job_cache s1 !! job_id j = Some res
         ∧ idx s1 = (idx s + 1)%Z
         ∧ dom (job_cache s1) = dom (job_cache s) ∪ {[job_id j]}
         ∧ ((job_cache s1 = job_cache s
             ∧ analyzer_calls s1 = analyzer_calls s
             ∧ found_cached s1 = (found_cached s + 1)%Z)
            ∨ (job_cache s !! job_id j = None
               ∧ job_cache s1 = <[job_id j := res]> (job_cache s)
               ∧ analyzer_calls s1 = analyzer_calls s ++ [argv j]
               ∧ found_cached s1 = found_cached s)).
Proof.
  destruct (process_job_cases s j)
    as [(res & Hc & ->)|[(Hc & res & Ha & ->)|(Hc & Ha & ->)]];
    [| |discriminate]; intros Heq; injection Heq as <- <-; exists res; simpl.
  - split; [reflexivity|]. split; [exact Hc|]. split; [reflexivity|].
    split; [|left; auto].
    apply elem_of_dom_2 in Hc. rewrite (comm_L (∪)). symmetry.
    now apply subseteq_union_1_L, singleton_subseteq_l.
  - split; [reflexivity|]. split; [apply lookup_insert_eq|].
    split; [reflexivity|]. split; [|right; auto].
    rewrite dom_insert_L. apply (comm_L (∪)).
Qed.

(** X16: one enriched record per job, in input order; the record of job
    [i] carries the position [i] (counted on from [idx] at start) and the
    metrics found under its key in the cache at the end of the run. *)
Theorem run_jobs_outputs s jobs outs s' :
  run_jobs s jobs = Done outs s' →
  length outs = length jobs
  ∧ idx s' = (idx s + Z.of_nat (length jobs))%Z
  ∧ ∀ i j, jobs !! i = Some j →
      ∃ res, job_cache s' !! job_id j = Some res
             ∧ outs !! i = Some (enrich j (idx s + Z.of_nat i) res).
Proof.
  revert s outs. induction jobs as [|j0 jobs IH]; intros s outs Hrun.
  - injection Hrun as <- <-. simpl. repeat split; [lia|]. intros i j Hi. discriminate.
  - apply run_jobs_cons_done in Hrun as (o & s1 & os & Hstep & Hrest & ->).
    destruct (process_job_step _ _ _ _ Hstep) as (res & -> & Hres & Hidx & _).
    destruct (IH _ _ Hrest) as (Hlen & Hidx' & Hall).
    split; [simpl; now rewrite Hlen|]. split; [simpl length; lia|].
    intros [|i] j Hi.
    + injection Hi as ->. exists res. split; [|rewrite lookup_cons; do 2 f_equal; lia].
      eapply lookup_weaken; [exact Hres|].
      pose proof (run_jobs_cache analyzer_script dir analyzer s1 jobs) as [Hsub _].
      now rewrite Hrest in Hsub.
    + destruct (Hall i j Hi) as (res' & Hres' & Hout). exists res'.
      split; [exact Hres'|]. rewrite lookup_cons, Hout. do 2 f_equal. lia.
Qed.

Lemma run_jobs_cache_size s jobs outs s' :
  run_jobs s jobs = Done outs s' →
  size (job_cache s') + length (analyzer_calls s)
  = size (job_cache s) + length (analyzer_calls s').
Proof.
  revert s outs. induction jobs as [|j0 jobs IH]; intros s outs Hrun.
  - injection Hrun as <- <-. lia.
  - apply run_jobs_cons_done in Hrun as (o & s1 & os & Hstep & Hrest & ->).
    pose proof (IH _ _ Hrest) as Hsize.
    destruct (process_job_step _ _ _ _ Hstep)
      as (res & _ & _ & _ & _ & [(Hc & Hcalls & _)|(Hnone & Hc & Hcalls & _)]).
    + now rewrite Hc, Hcalls in Hsize.
    + rewrite Hc, Hcalls in Hsize.
      rewrite map_size_insert_None in Hsize by assumption.
      rewrite length_app in Hsize. simpl length in Hsize. lia.
Qed.

(** X17: in a run that ends normally every job is either a reuse or one
    start of the analyzer, and every start of the analyzer adds exactly
    one entry to the cache. *)
Theorem run_jobs_accounts s jobs outs s' :
  run_jobs s jobs = Done outs s' →
  (found_cached s' + Z.of_nat (length (analyzer_calls s'))
   = found_cached s + Z.of_nat (length (analyzer_calls s)) + Z.of_nat (length jobs))%Z
  ∧ size (job_cache s') + length (analyzer_calls s)
    = size (job_cache s) + length (analyzer_calls s').
Proof.
  intros Hrun. split; [|exact (run_jobs_cache_size _ _ _ _ Hrun)].
  revert s outs Hrun. induction jobs as [|j0 jobs IH]; intros s outs Hrun.
  - injection Hrun as <- <-. simpl. lia.
  - apply run_jobs_cons_done in Hrun as (o & s1 & os & Hstep & Hrest & ->).
    pose proof (IH _ _ Hrest) as Hcount.
    destruct (process_job_step _ _ _ _ Hstep)
      as (res & _ & _ & _ & _ & [(_ & Hcalls & Hfound)|(_ & _ & Hcalls & Hfound)]);
      rewrite Hcalls, Hfound in Hcount.
    + simpl length. lia.
    + rewrite length_app in Hcount. simpl length in *. lia.
Qed.

(** X18: the keys of the cache at the end of a normal run are those it
    had at start and those of the jobs, and the analyzer was started once
    for each distinct key of the job list that the cache did not hold. *)
Theorem run_jobs_keys s jobs outs s' :
  run_jobs s jobs = Done outs s' →
  dom (job_cache s') = dom (job_cache s) ∪ job_ids jobs
  ∧ length (analyzer_calls s')
    = length (analyzer_calls s) + size (job_ids jobs ∖ dom (job_cache s)).
Proof.
  intros Hrun.
  assert (Hdom : dom (job_cache s') = dom (job_cache s) ∪ job_ids jobs).
  { revert s outs Hrun. induction jobs as [|j0 jobs IH]; intros s outs Hrun.
    - injection Hrun as <- <-. unfold job_ids. simpl. now rewrite (right_id_L ∅ (∪)).
    - apply run_jobs_cons_done in Hrun as (o & s1 & os & Hstep & Hrest & ->).
      destruct (process_job_step _ _ _ _ Hstep) as (res & _ & _ & _ & Hd & _).
      rewrite (IH _ _ Hrest), Hd. unfold job_ids. simpl.
      now rewrite (assoc_L (∪)). }
  split; [exact Hdom|].
  pose proof (run_jobs_cache_size _ _ _ _ Hrun) as Hsize.
  rewrite <- !size_dom, Hdom, size_union_alt in Hsize. lia.
Qed.

Lemma run_jobs_reuse s jobs :
  Forall (λ j, is_Some (job_cache s !! job_id j)) jobs →
  run_jobs s jobs
  = Done (reuse_outputs (job_cache s) (idx s) jobs) (reused s (length jobs)).
Proof.
  revert s. induction jobs as [|j0 jobs IH]; intros s Hall.
  - simpl. unfold reused. destruct s; simpl. do 2 f_equal; lia.
  - apply Forall_cons_iff in Hall as [[res Hres] Hall].
    destruct (process_job_cases s j0)
      as [(res' & Hres' & Hstep)|[(Hc & _)|(Hc & _)]]; [|congruence..].
    rewrite run_jobs_cons, Hstep, (IH (reused s 1) Hall), reused_reused.
    simpl. now rewrite Hres'.
Qed.

Lemma run_jobs_done_reuse s jobs outs s' :
  run_jobs s jobs = Done outs s' →
  outs = reuse_outputs (job_cache s') (idx s) jobs
  ∧ Forall (λ j, is_Some (job_cache s' !! job_id j)) jobs.
Proof.
  revert s outs. induction jobs as [|j0 jobs IH]; intros s outs Hrun.
  - injection Hrun as <- <-. now split.
  - apply run_jobs_cons_done in Hrun as (o & s1 & os & Hstep & Hrest & ->).
    destruct (process_job_step _ _ _ _ Hstep) as (res & -> & Hres & Hidx & _).
    destruct (IH _ _ Hrest) as [-> Hall].
    assert (Hres' : job_cache s' !! job_id j0 = Some res).
    { eapply lookup_weaken; [exact Hres|].
      pose proof (run_jobs_cache analyzer_script dir analyzer s1 jobs) as [Hsub _].
      now rewrite Hrest in Hsub. }
    split; [|constructor; eauto].
    simpl. now rewrite Hres', Hidx.
Qed.


(** X20: the analyzer is only ever started for a job of the list, with
    the job's compiler after [-c], the scratch directory after [-d], then
    the file, [--] and the job's args. *)
Theorem run_jobs_analyzer_calls s jobs :
  ∃ started,
    analyzer_calls (final_state (run_jobs s jobs)) = analyzer_calls s ++ started
    ∧ Forall (λ a, ∃ j, j ∈ jobs ∧ a = argv j) started.
Proof.
  revert s. induction jobs as [|j0 jobs IH]; intros s.
  - exists []. simpl. now rewrite app_nil_r.
  - rewrite run_jobs_cons.
    assert (Hlift : ∀ l : list (list string),
      Forall (λ a, ∃ j, j ∈ jobs ∧ a = argv j) l →
      Forall (λ a, ∃ j, j ∈ j0 :: jobs ∧ a = argv j) l).
    { intros l Hl. eapply Forall_impl; [exact Hl|]. intros a (j & Hj & ->). exists j.
      split; [now right|reflexivity]. }
    assert (Hhere : ∃ j, j ∈ j0 :: jobs ∧ argv j0 = argv j).
    { exists j0. split; [left|reflexivity]. }
    destruct (process_job_cases s j0)
      as [(res & Hc & ->)|[(Hc & res & Ha & ->)|(Hc & Ha & ->)]].
    + destruct (IH (reused s 1)) as (st & Hst & Hall).
      exists st. split; [|auto].
      destruct (run_jobs _ jobs); exact Hst.
    + match goal with |- context [run_jobs ?s1 jobs] =>
        destruct (IH s1) as (st & Hst & Hall) end.
      exists (argv j0 :: st). split; [|constructor; auto].
      simpl in Hst. rewrite <- app_assoc in Hst.
      destruct (run_jobs _ jobs); exact Hst.
    + exists [argv j0]. split; [reflexivity|]. constructor; auto.
Qed.

End Run.

(** X21: when the cache holds the key of every job, the run ends normally
    whatever the analyzer would do: it is never started, the cache and
    the cache file are left as they are, every job is counted as reused,
    and the output does not depend on the analyzer. *)
Theorem run_jobs_all_cached script dir analyzer s jobs :
  Forall (λ j, is_Some (job_cache s !! job_id j)) jobs →
  ∃ outs,
    run_jobs script dir analyzer s jobs = Done outs (reused s (length jobs))
    ∧ ∀ analyzer', run_jobs script dir analyzer' s jobs
                   = run_jobs script dir analyzer s jobs.
Proof.
  intros Hall. exists (reuse_outputs (job_cache s) (idx s) jobs).
  split; [now apply run_jobs_reuse|].
  intros analyzer'. now rewrite !run_jobs_reuse.
Qed.

Lemma run_jobs_all_cached_witness :
  let s := final_state three_jobs_run in
  ∃ outs,
    run_jobs "/a.py" "/tmp" failing s [job_b; job_a] = Done outs (reused s 2)
    ∧ ∀ analyzer', run_jobs "/a.py" "/tmp" analyzer' s [job_b; job_a]
                   = run_jobs "/a.py" "/tmp" failing s [job_b; job_a].
Proof.
  intros s.
  apply (run_jobs_all_cached "/a.py" "/tmp" failing s [job_b; job_a]).
  repeat constructor; vm_compute; eauto.
Defined.

(** X22: after a run that ends normally, a second run of the same job list
    that starts from the cache file the first one left gives the same
    enriched records, never starts the analyzer, never writes the cache
    file and counts every job as reused. *)
Theorem rerun_reuses_everything script dir analyzer analyzer' disk jobs outs s' :
  run_jobs script dir analyzer (init disk) jobs = Done outs s' →
  run_jobs script dir analyzer' (init (cache_file s')) jobs
  = Done outs (reused (init (cache_file s')) (length jobs))
  ∧ job_cache (init (cache_file s')) = job_cache s'.
Proof.
  intros Hrun.
  assert (Hload : job_cache (init (cache_file s')) = job_cache s').
  { pose proof (run_jobs_cache script dir analyzer (init disk) jobs) as [_ Hfile].
    rewrite Hrun in Hfile. simpl in Hfile.
    destruct Hfile as [[-> ->]| ->]; reflexivity. }
  split; [|exact Hload].
  destruct (run_jobs_done_reuse _ _ _ _ _ _ _ Hrun) as [-> Hall].
  rewrite run_jobs_reuse by now rewrite Hload.
  now rewrite Hload.
Qed.

Lemma rerun_reuses_everything_witness :
  let s' := final_state three_jobs_run in
  run_jobs "/a.py" "/tmp" failing (init (cache_file s')) three_jobs
  = Done (outputs three_jobs_run) (reused (init (cache_file s')) (length three_jobs))
  ∧ job_cache (init (cache_file s')) = job_cache s'.
Proof.
  apply (rerun_reuses_everything "/a.py" "/tmp" varying failing
           None three_jobs (outputs three_jobs_run) (final_state three_jobs_run)).
  apply (ended_normally_eq three_jobs_run). vm_compute. reflexivity.
Defined.

Lemma run_jobs_outputs_witness :
  let outs := outputs three_jobs_run in
  let s' := final_state three_jobs_run in
  length outs = length three_jobs
  ∧ idx s' = (idx (init None) + Z.of_nat (length three_jobs))%Z
  ∧ ∀ i j, three_jobs !! i = Some j →
      ∃ res, job_cache s' !! job_id j = Some res
             ∧ outs !! i = Some (enrich j (idx (init None) + Z.of_nat i) res).
Proof.
  apply (run_jobs_outputs "/a.py" "/tmp" varying (init None)
           three_jobs (outputs three_jobs_run) (final_state three_jobs_run)).
  apply (ended_normally_eq three_jobs_run). vm_compute. reflexivity.
Defined.

Lemma run_jobs_accounts_witness :
  let s' := final_state three_jobs_run in
  (found_cached s' + Z.of_nat (length (analyzer_calls s'))
   = found_cached (init None) + Z.of_nat (length (analyzer_calls (init None)))
     + Z.of_nat (length three_jobs))%Z
  ∧ size (job_cache s') + length (analyzer_calls (init None))
    = size (job_cache (init None)) + length (analyzer_calls s').
Proof.
  apply (run_jobs_accounts "/a.py" "/tmp" varying (init None)
           three_jobs (outputs three_jobs_run) (final_state three_jobs_run)).
  apply (ended_normally_eq three_jobs_run). vm_compute. reflexivity.
Defined.

Lemma run_jobs_keys_witness :
  let s' := final_state three_jobs_run in
  dom (job_cache s') = dom (job_cache (init None)) ∪ job_ids three_jobs
  ∧ length (analyzer_calls s')
    = length (analyzer_calls (init None))
      + size (job_ids three_jobs ∖ dom (job_cache (init None))).
Proof.
  apply (run_jobs_keys "/a.py" "/tmp" varying (init None)
           three_jobs (outputs three_jobs_run) (final_state three_jobs_run)).
  apply (ended_normally_eq three_jobs_run). vm_compute. reflexivity.
Defined.



End OrchestratorMore.
